(** * node-restify: the server core (lib/server.js)

    A shallow embedding of the request-routing and dispatch engine:
    handler-chain construction, route registration and removal, the
    pre-chain, route resolution with its three fallback outcomes, the
    default responders and the acceptable-types getter.

    JavaScript arrays are lists, objects used as records are records,
    exceptions are the left summand of [result], and the calls the server
    makes on objects whose classes live in other files (Response, Route,
    user callbacks) are kept as logs or taken from a type class. *)

From stdpp Require Import base list strings gmap.
From Stdlib Require Import ZArith Ascii.

Local Open Scope Z_scope.
Local Open Scope string_scope.
Local Open Scope list_scope.

#[local] Set Warnings "-register-all".

(** ** JavaScript values *)

Module Js.

(** Primitive values: the ones [typeof], [!] and [===] are applied to
    in server.js. *)
Inductive prim : Type :=
| PUndefined
| PBool (b : bool)
| PNum (n : Z)
| PStr (s : string).

(** What can be handed to [use], [pre] and the verb methods: anything.
    Functions are known by an identifier, arrays by their elements. *)
Inductive value : Type :=
| VPrim (p : prim)
| VFun (f : nat)
| VObj (o : nat)
| VArr (items : list value).

Definition typeof (v : value) : string :=
  match v with
  | VPrim PUndefined => "undefined"
  | VPrim (PBool _) => "boolean"
  | VPrim (PNum _) => "number"
  | VPrim (PStr _) => "string"
  | VFun _ => "function"
  | VObj _ => "object"
  | VArr _ => "object"
  end.

Definition isArray (v : value) : bool :=
  match v with VArr _ => true | _ => false end.

(** ToBoolean on primitives. *)
Definition truthy (p : prim) : bool :=
  match p with
  | PUndefined => false
  | PBool b => b
  | PNum n => negb (Z.eqb n 0)
  | PStr s => negb (String.eqb s "")
  end.

(** The prefix operator [!]. *)
Definition not (p : prim) : prim := PBool (negb (truthy p)).

(** Strict equality [===] on primitives: different types are never
    equal. *)
Definition strict_eq (a b : prim) : bool :=
  match a, b with
  | PUndefined, PUndefined => true
  | PBool x, PBool y => Bool.eqb x y
  | PNum x, PNum y => Z.eqb x y
  | PStr x, PStr y => String.eqb x y
  | _, _ => false
  end.

(** [a.indexOf(x)] on an array of strings: the first index, or -1. *)
Fixpoint indexOf (a : list string) (x : string) : Z :=
  match a with
  | [] => -1
  | y :: a' =>
      if String.eqb y x then 0
      else let i := indexOf a' x in if Z.eqb i (-1) then -1 else i + 1
  end.

(** [a.join(sep)] on an array of strings. *)
Fixpoint join (sep : string) (a : list string) : string :=
  match a with
  | [] => ""
  | [x] => x
  | x :: a' => x +:+ sep +:+ join sep a'
  end.

(** [a || b] on optional strings: the empty string and
    [undefined] are falsy. *)
Definition or_str (a b : option string) : option string :=
  match a with
  | Some s => if String.eqb s "" then b else a
  | None => b
  end.

(** What a thrown exception carries. *)
Inductive exn : Type :=
| TypeError (msg : string)
| Error (msg : string).

Definition result (A : Type) : Type := exn + A.

End Js.

Import Js.

(** ** Handler chains: [argsToChain] *)

(** The guard of line 42, [!typeof(h) === 'function'], as JavaScript
    parses it: [(!typeof(h)) === 'function']. *)
Definition handler_guard (h : value) : bool :=
  strict_eq (Js.not (PStr (typeof h))) (PStr "function").

(** [process(handlers)]: the inner closure of [argsToChain], pushing onto
    the shared [chain]; [process_one] is the body of its [forEach]
    callback. *)
Fixpoint process_one (h : value) (chain : list value) : result (list value) :=
  match h with
  | VArr hs =>
      (fix process (hs : list value) (chain : list value) :=
         match hs with
         | [] => inr chain
         | h' :: rest =>
             match process_one h' chain with
             | inl e => inl e
             | inr chain' => process rest chain'
             end
         end) hs chain
  | _ =>
      if handler_guard h
      then inl (TypeError "handlers must be Functions")
      else inr (chain ++ [h])
  end.

Fixpoint process (hs : list value) (chain : list value) : result (list value) :=
  match hs with
  | [] => inr chain
  | h :: rest =>
      match process_one h chain with
      | inl e => inl e
      | inr chain' => process rest chain'
      end
  end.

(** [argsToChain(args)]: [args] is the caller's argument list (or the
    handler array [_addRoute] passes). *)
Definition argsToChain (args : list value) : result (list value) :=
  if Z.ltb (Z.of_nat (length args)) 0
  then inl (TypeError "handler (Function) required")
  else process args [].

(** The flattening the chain builder is meant to compute: arrays are
    opened recursively, everything else is one element. *)
Fixpoint flatten (h : value) : list value :=
  match h with
  | VArr hs => flat_map flatten hs
  | _ => [h]
  end.

Definition flatten_all (hs : list value) : list value := flat_map flatten hs.

(** ** Data model *)

(** Path parameters extracted by a URL match. *)
Definition Params : Type := list (string * string).

(** The per-request context (lib/request.js wraps the raw request): the
    fields server.js and the route predicates read, and [params], which
    [_findRoute] writes; [None] is a [params] never assigned. *)
Record Request : Type := mkRequest {
  req_method : string;
  req_url : string;
  req_path : string;
  req_versions : list string;
  req_params : option Params
}.

(** The error objects of lib/errors.js that server.js constructs. *)
Inductive HttpError : Type :=
| ResourceNotFoundError (msg : string)
| BadMethodError (msg : string)
| InvalidVersionError (msg : string).

(** What [res.send] is given. *)
Inductive Payload : Type :=
| SendStatus (code : Z)
| SendError (e : HttpError)
| SendValue (v : value).

(** A method call received by the response object (lib/response.js). *)
Inductive ResCall : Type :=
| CallHeader (k v : string)
| CallSend (p : Payload)
| CallDefaultHeaders.

(** The response as server.js drives it: the method calls it has
    received, oldest first, and the properties server.js assigns. *)
Record Response : Type := mkResponse {
  res_calls : list ResCall;
  res_methods : option (list string);
  res_versions : option (list string);
  res_version : option string;
  res_serverName : option string
}.

(** A route as the server holds it: its identity as an object, the
    options it was constructed with, and the [methods] array [_addRoute]
    pushes onto. *)
Record Route : Type := mkRoute {
  rt_id : nat;
  rt_name : string;
  rt_method : string;
  rt_url : option string;
  rt_version : option string;
  rt_rangeVersioning : bool;
  rt_handlers : list value;
  rt_methods : list string
}.

(** What [matchesUrl] is called with: a request in [_findRoute], the
    literal [{ url: options.url }] in [_addRoute]. *)
Inductive UrlArg : Type :=
| OfRequest (req : Request)
| OfUrl (u : option string).

(** The part of lib/route.js the server calls. *)
Class RouteImpl : Type := {
  matchesUrl : Route -> UrlArg -> option Params;
  matchesMethod : Route -> Request -> bool;
  matchesVersion : Route -> Request -> bool;
  route_use : Route -> list value -> Route;
  default_name : string -> option string -> string;
  initial_methods : string -> list string
}.

(** The static [Response.ACCEPTABLE] of lib/response.js. *)
Class ResponseStatics : Type := { ACCEPTABLE : list string }.

(** The three fallback events. *)
Inductive Event : Type := VersionNotAllowed | MethodNotAllowed | NotFound.

(** A listener function: the default responder of the event it is
    registered under (the three are private to server.js and installed by
    [_findRoute] only, each under its own event), or a function of the
    user. *)
Inductive Listener : Type :=
| DefaultResponder
| UserListener (f : nat).

(** An entry of the emitter's listener array; [reg_once] marks the
    wrapper [once] installs, which unregisters itself when fired. *)
Record Registration : Type := mkReg {
  reg_listener : Listener;
  reg_once : bool
}.

Record Server : Type := mkServer {
  chain : list value;
  preChain : list value;
  routes : list Route;
  formatters : list (string * nat);
  opt_name : option string;
  srv_version : option string;
  srv_rangeVersioning : bool;
  on_VersionNotAllowed : list Registration;
  on_MethodNotAllowed : list Registration;
  on_NotFound : list Registration;
  next_id : nat
}.

(** [new Server(options)]: empty chains and table, no listeners. *)
Definition new_Server (fmts : list (string * nat)) (name version : option string)
    (range : bool) : Server :=
  {| chain := []; preChain := []; routes := []; formatters := fmts;
     opt_name := name; srv_version := or_str version None;
     srv_rangeVersioning := range;
     on_VersionNotAllowed := []; on_MethodNotAllowed := []; on_NotFound := [];
     next_id := 0 |}.

(** The [name] getter: [options.name || 'restify']. *)
Definition srv_name (s : Server) : string :=
  default "restify" (or_str (opt_name s) None).

Definition set_chain (c : list value) (s : Server) : Server :=
  {| chain := c; preChain := preChain s; routes := routes s;
     formatters := formatters s; opt_name := opt_name s;
     srv_version := srv_version s; srv_rangeVersioning := srv_rangeVersioning s;
     on_VersionNotAllowed := on_VersionNotAllowed s;
     on_MethodNotAllowed := on_MethodNotAllowed s; on_NotFound := on_NotFound s;
     next_id := next_id s |}.

Definition set_preChain (c : list value) (s : Server) : Server :=
  {| chain := chain s; preChain := c; routes := routes s;
     formatters := formatters s; opt_name := opt_name s;
     srv_version := srv_version s; srv_rangeVersioning := srv_rangeVersioning s;
     on_VersionNotAllowed := on_VersionNotAllowed s;
     on_MethodNotAllowed := on_MethodNotAllowed s; on_NotFound := on_NotFound s;
     next_id := next_id s |}.

Definition set_routes (rs : list Route) (s : Server) : Server :=
  {| chain := chain s; preChain := preChain s; routes := rs;
     formatters := formatters s; opt_name := opt_name s;
     srv_version := srv_version s; srv_rangeVersioning := srv_rangeVersioning s;
     on_VersionNotAllowed := on_VersionNotAllowed s;
     on_MethodNotAllowed := on_MethodNotAllowed s; on_NotFound := on_NotFound s;
     next_id := next_id s |}.

Definition set_next_id (n : nat) (s : Server) : Server :=
  {| chain := chain s; preChain := preChain s; routes := routes s;
     formatters := formatters s; opt_name := opt_name s;
     srv_version := srv_version s; srv_rangeVersioning := srv_rangeVersioning s;
     on_VersionNotAllowed := on_VersionNotAllowed s;
     on_MethodNotAllowed := on_MethodNotAllowed s; on_NotFound := on_NotFound s;
     next_id := n |}.

(** ** The event emitter (Node's [events.EventEmitter]) *)

(** [this.listeners(ev)]. *)
Definition listeners (s : Server) (ev : Event) : list Registration :=
  match ev with
  | VersionNotAllowed => on_VersionNotAllowed s
  | MethodNotAllowed => on_MethodNotAllowed s
  | NotFound => on_NotFound s
  end.

Definition set_listeners (ev : Event) (ls : list Registration) (s : Server) : Server :=
  {| chain := chain s; preChain := preChain s; routes := routes s;
     formatters := formatters s; opt_name := opt_name s;
     srv_version := srv_version s; srv_rangeVersioning := srv_rangeVersioning s;
     on_VersionNotAllowed :=
       match ev with VersionNotAllowed => ls | _ => on_VersionNotAllowed s end;
     on_MethodNotAllowed :=
       match ev with MethodNotAllowed => ls | _ => on_MethodNotAllowed s end;
     on_NotFound := match ev with NotFound => ls | _ => on_NotFound s end;
     next_id := next_id s |}.

(** [this.on(ev, f)] and [this.once(ev, f)]. *)
Definition on (ev : Event) (f : Listener) (s : Server) : Server :=
  set_listeners ev (listeners s ev ++ [mkReg f false]) s.

Definition once (ev : Event) (f : Listener) (s : Server) : Server :=
  set_listeners ev (listeners s ev ++ [mkReg f true]) s.

(** ** Responses and the default responders *)

(** A method call on the response: appended to its log. *)
Definition res_call (c : ResCall) (res : Response) : Response :=
  {| res_calls := res_calls res ++ [c]; res_methods := res_methods res;
     res_versions := res_versions res; res_version := res_version res;
     res_serverName := res_serverName res |}.

Definition header (k v : string) : Response -> Response := res_call (CallHeader k v).
Definition send (p : Payload) : Response -> Response := res_call (CallSend p).
Definition defaultHeaders : Response -> Response := res_call CallDefaultHeaders.

Definition default404Handler (req : Request) (res : Response) : Response :=
  send (SendError (ResourceNotFoundError (req_url req +:+ " not found"))) res.

Definition default405Handler (req : Request) (res : Response)
    (methods : list string) : Response :=
  let res := header "Allow" (join ", " methods) res in
  if String.eqb (req_method req) "OPTIONS" then
    send (SendStatus 200) res
  else
    let msg := req_url req +:+ " does not support " +:+ req_method req in
    send (SendError (BadMethodError msg)) res.

Definition defaultBadVersionHandler (req : Request) (res : Response)
    (versions : list string) : Response :=
  let msg := req_method req +:+ " " +:+ req_url req +:+ " supports versions: " +:+
             join ", " versions in
  send (SendError (InvalidVersionError msg)) res.

(** ** Emitting a fallback event *)

(** An [emit] call of [_findRoute]: the event with the arguments that
    follow [req] and [res]. *)
Inductive Emission : Type :=
| EmitVersionNotAllowed (versions : list string)
| EmitMethodNotAllowed (methods : list string)
| EmitNotFound.

Definition event_of (e : Emission) : Event :=
  match e with
  | EmitVersionNotAllowed _ => VersionNotAllowed
  | EmitMethodNotAllowed _ => MethodNotAllowed
  | EmitNotFound => NotFound
  end.

(** What the dispatcher does that is visible from outside the request
    and response objects. *)
Inductive Action : Type :=
| Emitted (e : Emission)
| Invoked (l : Listener) (e : Emission)
| RouteRun (r : Route).

(** The default responder of an emission, applied to its arguments. *)
Definition default_responder (e : Emission) (req : Request) (res : Response) : Response :=
  match e with
  | EmitVersionNotAllowed versions => defaultBadVersionHandler req res versions
  | EmitMethodNotAllowed methods => default405Handler req res methods
  | EmitNotFound => default404Handler req res
  end.

(** Calling one listener. What a user's listener does with the request
    and the response is its own business: the call is logged by [emit]
    and the response is left as it is. *)
Definition call_listener (l : Listener) (e : Emission) (req : Request)
    (res : Response) : Response :=
  match l with
  | DefaultResponder => default_responder e req res
  | UserListener _ => res
  end.

(** [this.emit(ev, req, res, ...)]: every listener registered for the
    event is called, in registration order; those installed by [once] are
    unregistered. *)
Definition emit (e : Emission) (req : Request) (res : Response) (s : Server)
    : Server * Response * list Action :=
  let ls := listeners s (event_of e) in
  let s' := set_listeners (event_of e) (filter (λ r, reg_once r = false) ls) s in
  let res' := fold_left (λ res r, call_listener (reg_listener r) e req res) ls res in
  (s', res', Emitted e :: map (λ r, Invoked (reg_listener r) e) ls).

(** The idiom of lines 493-496, 498-501 and 503-506: install the default
    responder when nobody listens, then emit. *)
Definition emit_with_default (e : Emission) (req : Request) (res : Response)
    (s : Server) : Server * Response * list Action :=
  let s1 :=
    if Nat.eqb (length (listeners s (event_of e))) 0
    then once (event_of e) DefaultResponder s
    else s in
  emit e req res s1.

(** ** Route resolution: [_findRoute] *)

Definition version_truthy (v : option string) : bool :=
  match v with
  | Some s => negb (String.eqb s "")
  | None => false
  end.

(** [if (a.indexOf(x) === -1) a.push(x)]. *)
Definition push_unique (a : list string) (x : string) : list string :=
  if Z.eqb (indexOf a x) (-1) then a ++ [x] else a.

(** The state of the loop of lines 465-482: the variables [route],
    [params], [methods] and [versions]. *)
Record Scan : Type := mkScan {
  sc_route : option Route;
  sc_params : option Params;
  sc_methods : list string;
  sc_versions : list string
}.

(** The loop, from the routes still to visit. *)
Fixpoint scan `{RouteImpl} (rs : list Route) (req : Request)
    (params : option Params) (methods versions : list string) : Scan :=
  match rs with
  | [] => mkScan None params methods versions
  | r :: rs' =>
      match matchesUrl r (OfRequest req) with
      | Some p =>
          if matchesMethod r req then
            if matchesVersion r req then
              mkScan (Some r) (Some p) methods versions
            else
              scan rs' req (Some p) methods
                (if version_truthy (rt_version r)
                 then push_unique versions (default "" (rt_version r))
                 else versions)
          else
            scan rs' req (Some p) (push_unique methods (rt_method r)) versions
      | None => scan rs' req None methods versions
      end
  end.

Definition set_params (p : Params) (req : Request) : Request :=
  {| req_method := req_method req; req_url := req_url req;
     req_path := req_path req; req_versions := req_versions req;
     req_params := Some p |}.

(** What [_findRoute] leaves behind: its return value, the server, the
    request, the response, and the calls made on listeners. *)
Record Found : Type := mkFound {
  fr_route : option Route;
  fr_server : Server;
  fr_req : Request;
  fr_res : Response;
  fr_trace : list Action
}.

Definition _findRoute `{RouteImpl} (s : Server) (req : Request) (res : Response) : Found :=
  let sc := scan (routes s) req None [] [] in
  match sc_route sc with
  | Some route =>
      let req' := set_params (default [] (sc_params sc)) req in
      let res' :=
        {| res_calls := res_calls res; res_methods := Some (rt_methods route);
           res_versions := res_versions res; res_version := rt_version route;
           res_serverName := res_serverName res |} in
      mkFound (Some route) s req' res' []
  | None =>
      let methods := sc_methods sc in
      let versions := sc_versions sc in
      let res1 :=
        {| res_calls := res_calls res; res_methods := Some methods;
           res_versions := Some versions; res_version := res_version res;
           res_serverName := res_serverName res |} in
      let '(s', res', tr) :=
        if negb (Nat.eqb (length versions) 0) then
          emit_with_default (EmitVersionNotAllowed versions) req res1 s
        else if negb (Nat.eqb (length methods) 0) then
          emit_with_default (EmitMethodNotAllowed methods) req res1 s
        else
          emit_with_default EmitNotFound req res1 s in
      mkFound None s' req res' tr
  end.

(** ** The pre-chain and [_request] *)

(** How a call [h(request, response, callback)] ends: the callback is
    called with an argument ([undefined] when called with none), or never
    called, or the call throws. *)
Inductive Outcome : Type :=
| Callback (arg : value)
| NoCallback
| Raise (e : exn).

Record HandlerRun : Type := mkRun {
  hr_req : Request;
  hr_res : Response;
  hr_outcome : Outcome
}.

(** The user's handler functions, by identifier: what each does to the
    request and the response, and how it ends. *)
Class Handlers : Type := {
  run_handler : nat -> Request -> Response -> HandlerRun
}.

(** ToBoolean on any value: objects, arrays and functions are truthy. *)
Definition value_truthy (v : value) : bool :=
  match v with
  | VPrim p => truthy p
  | _ => true
  end.

(** Calling a value as a function: anything but a function throws. *)
Definition call_value `{Handlers} (h : value) (req : Request) (res : Response) : HandlerRun :=
  match h with
  | VFun f => run_handler f req res
  | _ => mkRun req res (Raise (TypeError "h is not a function"))
  end.

(** An element of the [before] array of [_request]. *)
Inductive Task : Type :=
| HandlerTask (h : value)
| EnsureTask.

Definition run_task `{Handlers} (t : Task) (req : Request) (res : Response) : HandlerRun :=
  match t with
  | HandlerTask h => call_value h req res
  | EnsureTask => mkRun req res (Callback (VPrim PUndefined))
  end.

(** How [async.series] ends: its final callback is called without or
    with an error, or never, or a task threw. *)
Inductive SeriesEnd : Type :=
| SeriesOk
| SeriesErr (err : value)
| SeriesStalled
| SeriesRaised (e : exn).

(** [async.series(tasks, callback)]: tasks run one after the other; the
    first truthy error ends the series. *)
Fixpoint series `{Handlers} (tasks : list Task) (req : Request) (res : Response)
    : SeriesEnd * Request * Response :=
  match tasks with
  | [] => (SeriesOk, req, res)
  | t :: rest =>
      let run := run_task t req res in
      match hr_outcome run with
      | Callback arg =>
          if value_truthy arg then (SeriesErr arg, hr_req run, hr_res run)
          else series rest (hr_req run) (hr_res run)
      | NoCallback => (SeriesStalled, hr_req run, hr_res run)
      | Raise e => (SeriesRaised e, hr_req run, hr_res run)
      end
  end.

(** How a dispatch ends. *)
Inductive Status : Type :=
| Completed
| Stalled
| Raised (e : exn).

(** What [_request] leaves behind. *)
Record Dispatch : Type := mkDispatch {
  d_status : Status;
  d_server : Server;
  d_req : Request;
  d_res : Response;
  d_trace : list Action
}.

Definition set_serverName (n : string) (res : Response) : Response :=
  {| res_calls := res_calls res; res_methods := res_methods res;
     res_versions := res_versions res; res_version := res_version res;
     res_serverName := Some n |}.

(** [_request], from the wrapped [request] and [response]. *)
Definition _request `{RouteImpl} `{Handlers} (s : Server) (req : Request)
    (res : Response) : Dispatch :=
  let before := map HandlerTask (preChain s) ++ [EnsureTask] in
  match series before req res with
  | (SeriesErr err, req', res') =>
      mkDispatch Completed s req' (send (SendValue err) res') []
  | (SeriesOk, req', res') =>
      let f := _findRoute s req' res' in
      match fr_route f with
      | None => mkDispatch Completed (fr_server f) (fr_req f) (fr_res f) (fr_trace f)
      | Some route =>
          let res'' := defaultHeaders (set_serverName (srv_name s) (fr_res f)) in
          mkDispatch Completed (fr_server f) (fr_req f) res''
            (fr_trace f ++ [RouteRun route])
      end
  | (SeriesStalled, req', res') => mkDispatch Stalled s req' res' []
  | (SeriesRaised e, req', res') => mkDispatch (Raised e) s req' res' []
  end.

(** ** Registration: [use], [pre], [_addRoute], the verb methods, [rm] *)

Definition use `{RouteImpl} (args : list value) (s : Server) : result Server :=
  match argsToChain args with
  | inl e => inl e
  | inr c =>
      if negb (Nat.eqb (length c) 0) then
        inr (set_routes (map (λ r, route_use r c) (routes s))
               (set_chain (chain s ++ c) s))
      else inr s
  end.

Definition pre (args : list value) (s : Server) : result Server :=
  match argsToChain args with
  | inl e => inl e
  | inr c => inr (set_preChain (preChain s ++ c) s)
  end.

(** The [options] object of a route registration. *)
Record RouteOptions : Type := mkOptions {
  o_path : option string;
  o_url : option string;
  o_name : option string;
  o_version : option string;
  o_rangeVersioning : bool
}.

(** The first argument of a verb method: a string, an object, or
    something else. *)
Inductive RouteSpec : Type :=
| SpecUrl (u : string)
| SpecObj (o : RouteOptions)
| SpecOther.

(** Line 381: anything that is not an object becomes [{ url: options }]. *)
Definition as_options (u : string) : RouteOptions :=
  mkOptions None (Some u) None None false.

Definition push_method (m : string) (r : Route) : Route :=
  {| rt_id := rt_id r; rt_name := rt_name r; rt_method := rt_method r;
     rt_url := rt_url r; rt_version := rt_version r;
     rt_rangeVersioning := rt_rangeVersioning r; rt_handlers := rt_handlers r;
     rt_methods := push_unique (rt_methods r) m |}.

(** [_addRoute(method, options, handlers)]: the new route and the
    server afterwards. [new Route(...)] (lib/route.js) is taken to return
    a route: what the constructor may throw is not modelled, and nothing
    below asserts that a registration succeeds. *)
Definition _addRoute `{RouteImpl} (method : string) (options : RouteOptions)
    (handlers : list value) (s : Server) : result (Route * Server) :=
  match argsToChain handlers with
  | inl e => inl e
  | inr hs =>
      let chain := chain s ++ hs in
      let url := or_str (o_path options) (o_url options) in
      let route :=
        {| rt_id := next_id s;
           rt_name := default (default_name method url) (o_name options);
           rt_method := method;
           rt_url := url;
           rt_version := or_str (o_version options) (srv_version s);
           rt_rangeVersioning := o_rangeVersioning options || srv_rangeVersioning s;
           rt_handlers := chain;
           rt_methods := initial_methods method |} in
      let patched :=
        map (λ r, match matchesUrl r (OfUrl (o_url options)) with
                  | Some _ => push_method method r
                  | None => r
                  end) (routes s) in
      inr (route, set_next_id (S (next_id s)) (set_routes (patched ++ [route]) s))
  end.

(** The five routing methods of lines 281-303. *)
Inductive Verb : Type := del | get | head | post | put.

Definition verb_method (v : Verb) : string :=
  match v with
  | del => "DELETE"
  | get => "GET"
  | head => "HEAD"
  | post => "POST"
  | put => "PUT"
  end.

(** [server[verb](options, handler...)]; [handlers] are the arguments
    after the first. *)
Definition route_verb `{RouteImpl} (v : Verb) (options : RouteSpec)
    (handlers : list value) (s : Server) : result (Route * Server) :=
  if Nat.ltb (1 + length handlers) 2 then
    inl (Error "At least one handler (Function) required")
  else
    match options with
    | SpecOther => inl (TypeError "path (String) required")
    | SpecUrl u => _addRoute (verb_method v) (as_options u) handlers s
    | SpecObj o => _addRoute (verb_method v) o handlers s
    end.

(** The argument of [rm]: a route name, a route object, or something
    else. *)
Inductive RmArg : Type :=
| RmName (n : string)
| RmRoute (r : Route)
| RmOther.

(** [this.routes[i].name === name || this.routes[i] === name]: strings
    compare by content, objects by identity. *)
Definition rm_matches (name : RmArg) (r : Route) : bool :=
  match name with
  | RmName n => String.eqb (rt_name r) n
  | RmRoute x => Nat.eqb (rt_id r) (rt_id x)
  | RmOther => false
  end.

(** The loop of [rm]: the table with the first matching entry spliced
    out, if there is one. *)
Fixpoint rm_loop (name : RmArg) (rs : list Route) : option (list Route) :=
  match rs with
  | [] => None
  | r :: rs' =>
      if rm_matches name r then Some rs'
      else match rm_loop name rs' with
           | Some rs'' => Some (r :: rs'')
           | None => None
           end
  end.

Definition rm (name : RmArg) (s : Server) : result (bool * Server) :=
  match name with
  | RmOther => inl (TypeError "name (String) required")
  | _ =>
      match rm_loop name (routes s) with
      | Some rs => inr (true, set_routes rs s)
      | None => inr (false, s)
      end
  end.

(** ** The [acceptable] getter *)

Definition acceptable `{ResponseStatics} (s : Server) : list string :=
  fold_left push_unique ACCEPTABLE (map fst (formatters s)).

(** ** Vocabulary of the properties *)

(** A route fully matches a request: path, method and version. *)
Definition fully_matches `{RouteImpl} (r : Route) (req : Request) : bool :=
  match matchesUrl r (OfRequest req) with
  | Some _ => matchesMethod r req && matchesVersion r req
  | None => false
  end.

(** The precedence of the fallback outcomes, as the specification words
    it: versions first, then methods, then not found. *)
Definition fallback_outcome (versions methods : list string) : Emission :=
  match versions, methods with
  | _ :: _, _ => EmitVersionNotAllowed versions
  | [], _ :: _ => EmitMethodNotAllowed methods
  | [], [] => EmitNotFound
  end.

(** Who answers an emission: the user's listeners if there are any,
    otherwise the default responder. *)
Definition responders (s : Server) (ev : Event) : list Listener :=
  match listeners s ev with
  | [] => [DefaultResponder]
  | ls => map reg_listener ls
  end.

(** The listeners an emission reaches once the default is installed. *)
Definition reached (s : Server) (ev : Event) : list Registration :=
  match listeners s ev with
  | [] => [mkReg DefaultResponder true]
  | ls => ls
  end.

(** A route that blames the method: its path matches, its method does
    not. *)
Definition blames_method `{RouteImpl} (req : Request) (r : Route) : Prop :=
  is_Some (matchesUrl r (OfRequest req)) /\ matchesMethod r req = false.

(** The properties [_findRoute] assigns on the response when no route
    is found. *)
Definition with_accumulators (methods versions : list string) (res : Response) : Response :=
  {| res_calls := res_calls res; res_methods := Some methods;
     res_versions := Some versions; res_version := res_version res;
     res_serverName := res_serverName res |}.

(** A JavaScript object has each key once. *)
Definition wf_object {A : Type} (o : list (string * A)) : Prop := NoDup (map fst o).

(** The clause of the specification on later [use] calls: a route
    registered through a verb method keeps, after any later [use], the
    chain it was given at registration. *)
Definition use_keeps_registered_chains `{RouteImpl} : Prop :=
  forall (v : Verb) (options : RouteSpec) (handlers args : list value)
         (s s1 s2 : Server) (r : Route),
    route_verb v options handlers s = inr (r, s1) ->
    use args s1 = inr s2 ->
    exists r', last (routes s2) = Some r' /\ rt_id r' = rt_id r /\
               rt_handlers r' = chain s ++ flatten_all handlers.

(** ** Instances for the examples *)

(** Modelled from the spec: the predicates of [Route] (lib/route.js is
    not among the sources), for URL templates without parameters or
    wildcard, where a path matches iff it is byte-equal to the template
    and binds nothing; the method predicate is an exact match except that
    an OPTIONS request is always eligible; a route without version
    constraint matches any request, otherwise one of the request's
    versions must be the route's, or fall in its range, [in_range], under
    range versioning. The name is derived from method and pattern.
    [Route.use] is the parameter [use_fn]. *)
Definition literal_routes (in_range : string -> string -> bool)
    (use_fn : Route -> list value -> Route) : RouteImpl :=
  {| matchesUrl r arg :=
       let path := match arg with
                   | OfRequest req => Some (req_path req)
                   | OfUrl u => u
                   end in
       match rt_url r, path with
       | Some t, Some p => if String.eqb t p then Some [] else None
       | _, _ => None
       end;
     matchesMethod r req :=
       String.eqb (req_method req) "OPTIONS" || String.eqb (rt_method r) (req_method req);
     matchesVersion r req :=
       match rt_version r with
       | None => true
       | Some c =>
           existsb (λ v, if rt_rangeVersioning r then in_range c v else String.eqb c v)
                   (req_versions req)
       end;
     route_use := use_fn;
     default_name method url := method +:+ " " +:+ default "" url;
     initial_methods method := [method] |}.

(** Modelled from the spec: [Route.prototype.use] (lib/route.js is not
    among the sources; server.js calls it on every registered route at
    lines 347-349). The specification gives a route no behaviour beyond
    its three predicates and the exposure of its handler chain, and fixes
    that chain at registration: later global registrations do not
    retroactively affect already-created routes. The call leaves the route
    as it is. *)
Definition spec_Route_use (r : Route) (hs : list value) : Route := r.


Definition example_routes : RouteImpl :=
  literal_routes (λ _ _, false) spec_Route_use.

(** Handlers for the examples: 0 proceeds, 1 proceeds after binding a
    parameter itself, every other [f] signals the error object [f]. *)
Definition example_handlers : Handlers :=
  {| run_handler f req res :=
       match f with
       | O => mkRun req res (Callback (VPrim PUndefined))
       | S O => mkRun (set_params [("seen", "yes")] req) res (Callback (VPrim PUndefined))
       | _ => mkRun req res (Callback (VObj f))
       end |}.

Definition example_statics : ResponseStatics :=
  {| ACCEPTABLE := ["application/json"; "text/plain"; "application/octet-stream";
                    "text/plain"] |}.

(** A route for a literal path, as [example_routes] would construct it
    with the single handler [id]. *)
Definition example_route (id : nat) (method url : string) (version : option string) : Route :=
  mkRoute id (method +:+ " " +:+ url) method (Some url) version false [VFun id] [method].

Definition with_routes (rs : list Route) : Server := set_routes rs (new_Server [] None None false).

Definition example_request (method path : string) : Request :=
  mkRequest method path path [] None.

Definition fresh_response : Response := mkResponse [] None None None None.

Definition empty_server : Server := new_Server [] None None false.
(** ** Listening: [toPort], [isPipeName], [listen] *)

(** What [parseInt(s, 10)] returns: NaN, or an integer with its sign
    (JavaScript tells -0 from 0). *)
Inductive ParsedInt : Type :=
| NaN
| Int (negative : bool) (magnitude : N).

(** The white space and line terminators [parseInt] skips, among the
    code units below 256: TAB, LF, VT, FF, CR, SP, NBSP. The white space
    beyond (U+1680, U+2000 to U+200A, U+2028, U+2029, U+202F, U+205F,
    U+3000, U+FEFF) is not covered: the properties of [listen] below are
    about strings that start with an ASCII character. *)
Definition is_whitespace (c : ascii) : bool :=
  let n := nat_of_ascii c in
  Nat.eqb n 9 || Nat.eqb n 10 || Nat.eqb n 11 || Nat.eqb n 12 || Nat.eqb n 13
  || Nat.eqb n 32 || Nat.eqb n 160.

Definition is_digit (c : ascii) : bool :=
  let n := nat_of_ascii c in Nat.leb 48 n && Nat.leb n 57.

Definition digit_value (c : ascii) : N := N.of_nat (nat_of_ascii c - 48).

Fixpoint skip_whitespace (s : string) : string :=
  match s with
  | String c s' => if is_whitespace c then skip_whitespace s' else s
  | EmptyString => s
  end.

(** An optional sign: whether it is a minus, and what follows it. *)
Definition strip_sign (s : string) : bool * string :=
  match s with
  | String c s' =>
      if Ascii.eqb c "-" then (true, s')
      else if Ascii.eqb c "+" then (false, s')
      else (false, s)
  | EmptyString => (false, s)
  end.

(** The value of the longest prefix of decimal digits, if it has one
    digit at least; [acc] is the value read so far. *)
Fixpoint digits_prefix (s : string) (acc : option N) : option N :=
  match s with
  | String c s' =>
      if is_digit c
      then digits_prefix s' (Some (10 * default 0%N acc + digit_value c)%N)
      else acc
  | EmptyString => acc
  end.

Definition parseInt10 (s : string) : ParsedInt :=
  let '(negative, rest) := strip_sign (skip_whitespace s) in
  match digits_prefix rest None with
  | Some n => Int negative n
  | None => NaN
  end.

(** [x >= 0] on what [parseInt] returns: false on NaN, true on -0. *)
Definition ge_zero (x : ParsedInt) : bool :=
  match x with
  | NaN => false
  | Int negative n => negb negative || N.eqb n 0
  end.

(** What [toPort] returns: a number, or [false]. *)
Inductive PortResult : Type :=
| Port (x : ParsedInt)
| NotAPort.

Definition toPort (s : string) : PortResult :=
  let x := parseInt10 s in
  if ge_zero x then Port x else NotAPort.

Definition isPipeName (v : value) : bool :=
  match v with
  | VPrim (PStr s) =>
      match toPort s with
      | NotAPort => true
      | Port _ => false
      end
  | _ => false
  end.

(** What [this.server.listen] is called with. *)
Inductive ListenTarget : Type :=
| OnDefault
| OnPipe (path : string)
| OnPort (port : Z) (host : string).

(** A successful [listen]: the call made on the underlying server and
    what [listenCallback] will do, enable the DTrace probes and call the
    user's callback. *)
Record Listening : Type := mkListening {
  l_target : ListenTarget;
  l_dtrace : bool;
  l_callback : option nat
}.

(** [v === false]. *)
Definition is_false (v : value) : bool :=
  match v with
  | VPrim p => strict_eq p (PBool false)
  | _ => false
  end.

(** [server.listen(...)], from its argument list. *)
Definition listen (args : list value) : result Listening :=
  match args with
  | [] => inr (mkListening OnDefault true None)
  | first :: _ =>
      let callback :=
        match last args with
        | Some (VFun f) => Some f
        | _ => None
        end in
      let dtrace :=
        negb (Nat.leb 2 (length args) &&
              is_false (nth (length args - 2) args (VPrim PUndefined))) in
      match first with
      | VFun _ => inr (mkListening OnDefault dtrace callback)
      | VPrim (PStr s) =>
          if isPipeName first
          then inr (mkListening (OnPipe s) dtrace callback)
          else inl (TypeError (s +:+ " is not a named pipe"))
      | VPrim (PNum port) =>
          let host :=
            match nth 1 args (VPrim PUndefined) with
            | VPrim (PStr h) => h
            | _ => "0.0.0.0"
            end in
          inr (mkListening (OnPort port host) dtrace callback)
      | _ => inl (TypeError "port (Number) required")
      end
  end.

(** A string of decimal digits, and not the empty one. *)
Definition all_digits (s : string) : Prop :=
  s <> "" /\ Forall (λ c, is_digit c = true) (String.list_ascii_of_string s).

(** ** Vocabulary of the further properties *)

(** A route that blames the version [v]: path and method match, the
    version does not, and the route has [v] as its (truthy) version. *)
Definition blames_version `{RouteImpl} (req : Request) (r : Route) (v : string) : Prop :=
  is_Some (matchesUrl r (OfRequest req)) /\ matchesMethod r req = true /\
  matchesVersion r req = false /\ rt_version r = Some v /\ v <> "".

(** No default responder is registered: the state of a server between
    two requests. *)
Definition no_default_installed (s : Server) : Prop :=
  forall ev, Forall (λ r, reg_listener r <> DefaultResponder) (listeners s ev).

Definition is_send (c : ResCall) : bool :=
  match c with
  | CallSend _ => true
  | _ => false
  end.

(** The number of [send] calls in a log. *)
Definition sends (cs : list ResCall) : nat :=
  length (filter (λ c, is_send c = true) cs).

(** Route objects are distinct and older than the next one. *)
Definition ids_fresh (s : Server) : Prop :=
  Forall (λ r, (rt_id r < next_id s)%nat) (routes s).

(** A sequence of [use] calls, stopping at the first that throws. *)
Fixpoint use_all `{RouteImpl} (calls : list (list value)) (s : Server) : result Server :=
  match calls with
  | [] => inr s
  | args :: calls' =>
      match use args s with
      | inl e => inl e
      | inr s' => use_all calls' s'
      end
  end.

#[global] Instance Event_eq_dec : EqDecision Event.
Proof. solve_decision. Defined.

(** What [_addRoute] does to a route already registered when a route for
    [method] and [options] arrives. *)
Definition back_patch `{RouteImpl} (method : string) (options : RouteOptions)
    (r : Route) : Route :=
  match matchesUrl r (OfUrl (o_url options)) with
  | Some _ => push_method method r
  | None => r
  end.

(** Two route objects that differ in their [methods] array at most. *)
Definition same_but_methods (old new : Route) : Prop :=
  rt_id new = rt_id old /\ rt_name new = rt_name old /\
  rt_method new = rt_method old /\ rt_url new = rt_url old /\
  rt_version new = rt_version old /\
  rt_rangeVersioning new = rt_rangeVersioning old /\
  rt_handlers new = rt_handlers old.

(** ** The module entry point (lib/index.js) *)

(** A DTrace provider, as [d.createDTraceProvider(name)] makes them. *)
Record Provider : Type := mkProvider {
  prov_id : nat;
  prov_name : string
}.

(** The state of the module: its variable [DTRACE], and how many
    providers it has made. *)
Record ModuleState : Type := mkModule {
  DTRACE : option Provider;
  providers_made : nat
}.

Definition fresh_module : ModuleState := mkModule None 0.

(** [getDTraceProvider(options)], from [options.dtrace] and
    [options.name]. *)
Definition getDTraceProvider (dtrace : option Provider) (name : option string)
    (m : ModuleState) : Provider * ModuleState :=
  match dtrace with
  | Some p => (p, m)
  | None =>
      match DTRACE m with
      | Some p => (p, m)
      | None =>
          let p := mkProvider (providers_made m) (default "restify" (or_str name None)) in
          (p, mkModule (Some p) (S (providers_made m)))
      end
  end.

(** The options of [createServer]; loggers are known by an identifier,
    0 being the module's own log4js stub. *)
Record ServerOptions : Type := mkServerOptions {
  so_log4js : option nat;
  so_name : option string;
  so_dtrace : option Provider;
  so_formatters : list (string * nat);
  so_version : option string;
  so_rangeVersioning : bool
}.

Definition no_options : ServerOptions := mkServerOptions None None None [] None false.

(** [createServer(options)]: the server, the options object as the call
    leaves it, and the module afterwards; [None] is a falsy argument. *)
Definition createServer (options : option ServerOptions) (m : ModuleState)
    : Server * ServerOptions * ModuleState :=
  let o := default no_options options in
  let log4js := match so_log4js o with Some l => Some l | None => Some 0%nat end in
  let name := match or_str (so_name o) None with
              | Some n => Some n
              | None => Some "restify"
              end in
  let '(p, m') := getDTraceProvider (so_dtrace o) name m in
  let o' := mkServerOptions log4js name (Some p) (so_formatters o) (so_version o)
              (so_rangeVersioning o) in
  (new_Server (so_formatters o') (so_name o') (so_version o') (so_rangeVersioning o'),
   o', m').

(** The three client classes of lib/clients. *)
Inductive ClientKind : Type := HttpClient | JsonClient | StringClient.

Record ClientOptions : Type := mkClientOptions {
  co_log4js : option nat;
  co_name : option string;
  co_dtrace : option Provider;
  co_type : option string
}.

(** [createClient(options)]: which class is instantiated, with which
    options; [None] is an argument that is not an object. *)
Definition createClient (options : option ClientOptions) (m : ModuleState)
    : result (ClientKind * ClientOptions * ModuleState) :=
  match options with
  | None => inl (TypeError "options (Object) required")
  | Some o =>
      let log4js := match co_log4js o with Some l => Some l | None => Some 0%nat end in
      let type := match or_str (co_type o) None with
                  | Some t => t
                  | None => "application/octet-stream"
                  end in
      let '(p, m') := getDTraceProvider (co_dtrace o) (co_name o) m in
      let o' := mkClientOptions log4js (co_name o) (Some p) (Some type) in
      let kind :=
        if String.eqb type "json" then JsonClient
        else if String.eqb type "string" then StringClient
        else HttpClient in
      inr (kind, o', m')
  end.

Definition set_type (t : string) (o : ClientOptions) : ClientOptions :=
  mkClientOptions (co_log4js o) (co_name o) (co_dtrace o) (Some t).

Definition createJsonClient (options : option ClientOptions) (m : ModuleState)
    : result (ClientKind * ClientOptions * ModuleState) :=
  match options with
  | None => inl (TypeError "options (Object) required")
  | Some o => createClient (Some (set_type "json" o)) m
  end.

Definition createStringClient (options : option ClientOptions) (m : ModuleState)
    : result (ClientKind * ClientOptions * ModuleState) :=
  match options with
  | None => inl (TypeError "options (Object) required")
  | Some o => createClient (Some (set_type "string" o)) m
  end.

(** A call on the module that makes a server or a client. *)
Inductive ApiCall : Type :=
| CallCreateServer (options : option ServerOptions)
| CallCreateClient (options : option ClientOptions)
| CallCreateJsonClient (options : option ClientOptions)
| CallCreateStringClient (options : option ClientOptions).

(** The provider the caller passed in [options.dtrace], if any. *)
Definition own_dtrace (c : ApiCall) : option Provider :=
  match c with
  | CallCreateServer o => so_dtrace (default no_options o)
  | CallCreateClient o | CallCreateJsonClient o | CallCreateStringClient o =>
      o ≫= co_dtrace
  end.

Definition client_dtrace (r : result (ClientKind * ClientOptions * ModuleState))
    (m : ModuleState) : option Provider * ModuleState :=
  match r with
  | inr (_, o, m') => (co_dtrace o, m')
  | inl _ => (None, m)
  end.

(** One call: the provider the server or client made is given, none
    when the call throws, and the module afterwards. *)
Definition api_call (c : ApiCall) (m : ModuleState) : option Provider * ModuleState :=
  match c with
  | CallCreateServer o => let '(_, o', m') := createServer o m in (so_dtrace o', m')
  | CallCreateClient o => client_dtrace (createClient o m) m
  | CallCreateJsonClient o => client_dtrace (createJsonClient o m) m
  | CallCreateStringClient o => client_dtrace (createStringClient o m) m
  end.

(** A sequence of calls: the providers given, call by call. *)
Fixpoint run_api (calls : list ApiCall) (m : ModuleState)
    : list (option Provider) * ModuleState :=
  match calls with
  | [] => ([], m)
  | c :: calls' =>
      let '(p, m1) := api_call c m in
      let '(ps, m2) := run_api calls' m1 in
      (p :: ps, m2)
  end.

(** A call that succeeds and leaves the choice of the provider to the
    module. *)
Definition wants_shared (c : ApiCall) : Prop :=
  own_dtrace c = None /\
  match c with
  | CallCreateServer _ => True
  | CallCreateClient o | CallCreateJsonClient o | CallCreateStringClient o => is_Some o
  end.

(** ** The response stub of the tests (tst/stubs.js) *)

(** The raw response [getResponse] builds: the chunks written, the own
    properties of the header object, the status code, and the 'end' events
    emitted so far, each with status code, headers and chunks as they were
    then. *)
Record Stub : Type := mkStub {
  stub_data : list string;
  stub_headers : gmap string string;
  stub_statusCode : Z;
  stub_ended : list (Z * gmap string string * list string)
}.

Definition new_stub : Stub := mkStub [] ∅ 200 [].

(** The calls the stub answers; [None] is an argument left out. *)
Inductive StubOp : Type :=
| OpSetHeader (k v : string)
| OpRemoveHeader (k : string)
| OpWriteHead (status : option Z) (headers : option (gmap string string))
| OpWrite (data : string)
| OpEnd (data : option string)
| OpWriteContinue
| OpAddTrailers.

(** What [stub._headers[k]] reads: an own property of the header
    object, or else whatever its prototype holds for [k] ([undefined] for
    most keys, the prototype itself for [__proto__]). *)
Inductive HeaderLookup : Type :=
| OwnValue (v : string)
| NotOwn.

Definition getHeader (k : string) (st : Stub) : HeaderLookup :=
  match stub_headers st !! k with
  | Some v => OwnValue v
  | None => NotOwn
  end.

(** [stub._headers[k] = v] with a string [v]: an own property is
    written or created, except that assigning a string to [__proto__] on an
    object that has no own property of that name does nothing. *)
Definition assign_header (k v : string) (h : gmap string string) : gmap string string :=
  if String.eqb k "__proto__" && negb (bool_decide (is_Some (h !! k)))
  then h
  else <[k:=v]> h.

(** [if (status)] and [if (data)]: zero and the empty string are
    falsy. *)
Definition status_given (status : option Z) : option Z :=
  match status with
  | Some n => if Z.eqb n 0 then None else Some n
  | None => None
  end.

Definition data_given (data : option string) : list string :=
  match data with
  | Some d => if String.eqb d "" then [] else [d]
  | None => []
  end.

Definition stub_step (st : Stub) (op : StubOp) : Stub :=
  match op with
  | OpSetHeader k v =>
      mkStub (stub_data st) (assign_header k v (stub_headers st)) (stub_statusCode st)
        (stub_ended st)
  | OpRemoveHeader k =>
      mkStub (stub_data st) (delete k (stub_headers st)) (stub_statusCode st) (stub_ended st)
  | OpWriteHead status headers =>
      mkStub (stub_data st) (default (stub_headers st) headers)
        (default (stub_statusCode st) (status_given status)) (stub_ended st)
  | OpWrite data =>
      mkStub (stub_data st ++ [data]) (stub_headers st) (stub_statusCode st) (stub_ended st)
  | OpEnd data =>
      let chunks := stub_data st ++ data_given data in
      mkStub chunks (stub_headers st) (stub_statusCode st)
        (stub_ended st ++ [(stub_statusCode st, stub_headers st, chunks)])
  | OpWriteContinue => st
  | OpAddTrailers => st
  end.

Definition stub_run (ops : list StubOp) (st : Stub) : Stub := fold_left stub_step ops st.

(** The chunks a sequence of calls adds. *)
Definition chunks_of (op : StubOp) : list string :=
  match op with
  | OpWrite data => [data]
  | OpEnd data => data_given data
  | _ => []
  end.

(** A call that may change what header [k] holds. *)
Definition touches_header (k : string) (op : StubOp) : Prop :=
  match op with
  | OpSetHeader k' _ => k' = k
  | OpRemoveHeader k' => k' = k
  | OpWriteHead _ (Some _) => True
  | _ => False
  end.

(** ** Properties of the chain builder *)

(** Induction on values that reaches inside arrays. *)
Lemma value_nested_ind (P : value -> Prop) :
  (forall p, P (VPrim p)) ->
  (forall f, P (VFun f)) ->
  (forall o, P (VObj o)) ->
  (forall items, Forall P items -> P (VArr items)) ->
  forall v, P v.
Proof.
  intros Hp Hf Ho Ha. fix IH 1. intros [p|f|o|items].
  - apply Hp.
  - apply Hf.
  - apply Ho.
  - apply Ha. induction items as [|x xs IHxs]; constructor; [apply IH | exact IHxs].
Qed.

Lemma handler_guard_false (h : value) : handler_guard h = false.
Proof. reflexivity. Qed.

Lemma process_Forall (hs : list value) :
  Forall (fun h => forall chain, process_one h chain = inr (chain ++ flatten h)) hs ->
  forall chain, process hs chain = inr (chain ++ flatten_all hs).
Proof.
  induction 1 as [|h hs Hh _ IH]; intros chain; simpl.
  - by rewrite app_nil_r.
  - rewrite Hh, IH. unfold flatten_all. simpl. by rewrite app_assoc.
Qed.

Lemma process_one_flatten (h : value) (chain : list value) :
  process_one h chain = inr (chain ++ flatten h).
Proof.
  revert chain. induction h as [p|f|o|items IH] using value_nested_ind; intros chain;
    try reflexivity.
  change (process_one (VArr items) chain) with (process items chain).
  apply (process_Forall items IH).
Qed.

Lemma process_flatten (hs : list value) (chain : list value) :
  process hs chain = inr (chain ++ flatten_all hs).
Proof.
  apply process_Forall, Forall_forall. intros h _ c. apply process_one_flatten.
Qed.

Lemma argsToChain_flatten (args : list value) :
  argsToChain args = inr (flatten_all args).
Proof.
  unfold argsToChain.
  destruct (Z.ltb_spec (Z.of_nat (length args)) 0) as [Hneg|_]; [lia|].
  apply process_flatten.
Qed.

(** C10: whatever the argument list handed to the chain builder (by
    [use], [pre] or a route registration), the guard of its TypeError
    'handlers must be Functions' is false on every value, function or
    not, so the builder never raises it (nor anything else): it returns
    the flattened list, every non-array element appended in order. *)
Theorem argsToChain_never_rejects :
  (forall h : value, handler_guard h = false) /\
  (forall args : list value, argsToChain args = inr (flatten_all args)).
Proof. split; [exact handler_guard_false | exact argsToChain_flatten]. Qed.

Example argsToChain_keeps_non_functions :
  argsToChain [VFun 1; VArr [VPrim (PNum 42); VArr [VFun 2; VPrim (PStr "x")]]; VObj 3]
  = inr [VFun 1; VPrim (PNum 42); VFun 2; VPrim (PStr "x"); VObj 3].
Proof. reflexivity. Qed.

(** ** Properties of [indexOf] and [push_unique] *)

Lemma indexOf_lower (a : list string) (x : string) : -1 <= indexOf a x.
Proof.
  induction a as [|y a IH]; simpl; [lia|].
  destruct (String.eqb y x); [lia|].
  destruct (Z.eqb_spec (indexOf a x) (-1)); lia.
Qed.

Lemma indexOf_absent (a : list string) (x : string) :
  indexOf a x = -1 <-> x ∉ a.
Proof.
  induction a as [|y a IH]; simpl.
  - split; [intros _; apply not_elem_of_nil | done].
  - destruct (String.eqb_spec y x) as [->|Hne].
    + split; [done | intros Hx; exfalso; apply Hx; left].
    + pose proof (indexOf_lower a x) as Hlo.
      destruct (Z.eqb_spec (indexOf a x) (-1)) as [Heq|Hneq].
      * split; [|done]. intros _. apply not_elem_of_cons. split; [congruence | by apply IH].
      * split; [lia|]. intros Hx. exfalso. apply Hneq, IH.
        intros Hin. apply Hx. by right.
Qed.

Lemma push_unique_decide (a : list string) (x : string) :
  push_unique a x = if decide (x ∈ a) then a else a ++ [x].
Proof.
  unfold push_unique. destruct (Z.eqb_spec (indexOf a x) (-1)) as [Heq|Hneq].
  - apply indexOf_absent in Heq. by rewrite decide_False.
  - rewrite decide_True; [done|]. destruct (decide (x ∈ a)) as [|Hn]; [done|].
    by apply indexOf_absent in Hn.
Qed.

Lemma push_unique_NoDup (a : list string) (x : string) :
  NoDup a -> NoDup (push_unique a x).
Proof.
  intros Ha. rewrite push_unique_decide. case_decide; [done|].
  apply NoDup_app. split_and!; [done | | apply NoDup_singleton].
  intros y Hy Hy'. apply list_elem_of_singleton in Hy'. by subst.
Qed.

Lemma push_unique_elem (a : list string) (x y : string) :
  y ∈ push_unique a x <-> y ∈ a \/ y = x.
Proof.
  rewrite push_unique_decide. case_decide.
  - split; [by left | intros [? | ->]; done].
  - rewrite elem_of_app, list_elem_of_singleton. done.
Qed.

Lemma push_unique_prefix (a : list string) (x : string) :
  exists t, push_unique a x = a ++ t.
Proof.
  rewrite push_unique_decide. case_decide; [exists []; by rewrite app_nil_r | by exists [x]].
Qed.

(** ** Properties of route resolution *)

Section Resolution.
Context `{impl : RouteImpl}.

(** One turn of the loop on a route that does not fully match leaves
    [route] unset. *)
Lemma scan_cons_no_match (r : Route) (rs : list Route) (req : Request)
    (params : option Params) (methods versions : list string) :
  fully_matches r req = false ->
  exists params' methods' versions',
    (forall rest, scan (r :: rest) req params methods versions
                  = scan rest req params' methods' versions') /\
    (exists tm, methods' = methods ++ tm) /\ (exists tv, versions' = versions ++ tv).
Proof.
  unfold fully_matches. intros Hno. simpl.
  destruct (matchesUrl r (OfRequest req)) as [p|] eqn:Hu.
  - destruct (matchesMethod r req) eqn:Hm.
    + destruct (matchesVersion r req) eqn:Hv; [done|].
      eexists _, _, _. split; [intros rest; reflexivity|]. split.
      * exists []. by rewrite app_nil_r.
      * destruct (version_truthy (rt_version r)).
        -- apply push_unique_prefix.
        -- exists []. by rewrite app_nil_r.
    + eexists _, _, _. split; [intros rest; reflexivity|]. split.
      * apply push_unique_prefix.
      * exists []. by rewrite app_nil_r.
  - eexists _, _, _. split; [intros rest; reflexivity|]. split;
      exists []; by rewrite app_nil_r.
Qed.

(** The loop over routes none of which fully matches runs through them
    all: what it does afterwards depends on them through the
    accumulators only. *)
Lemma scan_skip (before : list Route) (req : Request) :
  Forall (λ r, fully_matches r req = false) before ->
  forall params methods versions,
  exists params' methods' versions',
    forall rest, scan (before ++ rest) req params methods versions
                 = scan rest req params' methods' versions'.
Proof.
  induction 1 as [|r before Hr _ IH]; intros params methods versions.
  - exists params, methods, versions. done.
  - destruct (scan_cons_no_match r before req params methods versions Hr)
      as (p1 & m1 & v1 & Hstep & _ & _).
    destruct (IH p1 m1 v1) as (p2 & m2 & v2 & Hrest).
    exists p2, m2, v2. intros rest. rewrite <- app_comm_cons, Hstep. apply Hrest.
Qed.

Lemma scan_cons_match (r : Route) (rest : list Route) (req : Request)
    (params : option Params) (methods versions : list string) :
  fully_matches r req = true ->
  exists p, matchesUrl r (OfRequest req) = Some p /\
    scan (r :: rest) req params methods versions = mkScan (Some r) (Some p) methods versions.
Proof.
  unfold fully_matches. intros Hyes. simpl.
  destruct (matchesUrl r (OfRequest req)) as [p|]; [|done].
  apply andb_prop in Hyes as [-> ->]. by exists p.
Qed.

(** When the loop ends without a route, no route of the table fully
    matches; when it ends with one, that route is the first that
    does. *)
Lemma scan_route_inv (rs : list Route) (req : Request) :
  forall params methods versions,
  match sc_route (scan rs req params methods versions) with
  | None => Forall (λ r, fully_matches r req = false) rs
  | Some r =>
      exists before after p,
        rs = before ++ r :: after /\
        Forall (λ r', fully_matches r' req = false) before /\
        matchesUrl r (OfRequest req) = Some p /\ fully_matches r req = true /\
        sc_params (scan rs req params methods versions) = Some p
  end.
Proof.
  induction rs as [|r rs IH]; intros params methods versions; [by constructor|].
  destruct (fully_matches r req) eqn:Hr.
  - destruct (scan_cons_match r rs req params methods versions Hr) as (p & Hp & ->).
    simpl. exists [], rs, p. split_and!; done.
  - destruct (scan_cons_no_match r rs req params methods versions Hr)
      as (p1 & m1 & v1 & Hstep & _ & _).
    rewrite Hstep. specialize (IH p1 m1 v1).
    destruct (sc_route (scan rs req p1 m1 v1)) as [r'|].
    + destruct IH as (before & after & p & -> & Hb & Hp & Hf & Hsp).
      exists (r :: before), after, p. split_and!; try done. by constructor.
    + by constructor.
Qed.

Lemma scan_no_match (rs : list Route) (req : Request)
    (params : option Params) (methods versions : list string) :
  Forall (λ r, fully_matches r req = false) rs ->
  sc_route (scan rs req params methods versions) = None.
Proof.
  intros Hno. destruct (scan_skip rs req Hno params methods versions)
    as (p & m & v & Hskip).
  specialize (Hskip []). rewrite app_nil_r in Hskip. by rewrite Hskip.
Qed.

(** The accumulators never hold a string twice. *)
Lemma scan_NoDup (rs : list Route) (req : Request) :
  forall params methods versions,
    NoDup methods -> NoDup versions ->
    NoDup (sc_methods (scan rs req params methods versions)) /\
    NoDup (sc_versions (scan rs req params methods versions)).
Proof.
  induction rs as [|r rs IH]; intros params methods versions Hm Hv; [done|].
  simpl. destruct (matchesUrl r (OfRequest req)); [|by apply IH].
  destruct (matchesMethod r req).
  - destruct (matchesVersion r req); [done|].
    apply IH; [done|]. destruct (version_truthy (rt_version r)); [|done].
    by apply push_unique_NoDup.
  - apply IH; [|done]. by apply push_unique_NoDup.
Qed.

End Resolution.

(** ** Properties of the emitter *)

Lemma listeners_set_listeners (ev : Event) (ls : list Registration) (s : Server) :
  listeners (set_listeners ev ls s) ev = ls.
Proof. by destruct ev. Qed.

Lemma set_listeners_twice (ev : Event) (ls ls' : list Registration) (s : Server) :
  set_listeners ev ls' (set_listeners ev ls s) = set_listeners ev ls' s.
Proof. by destruct ev. Qed.

Lemma set_listeners_same (ev : Event) (s : Server) :
  set_listeners ev (listeners s ev) s = s.
Proof. by destruct s, ev. Qed.

Lemma routes_set_listeners (ev : Event) (ls : list Registration) (s : Server) :
  routes (set_listeners ev ls s) = routes s.
Proof. done. Qed.

Lemma emit_with_default_spec (e : Emission) (req : Request) (res : Response) (s : Server) :
  emit_with_default e req res s =
    (set_listeners (event_of e)
       (filter (λ r, reg_once r = false) (listeners s (event_of e))) s,
     fold_left (λ res r, call_listener (reg_listener r) e req res)
       (reached s (event_of e)) res,
     Emitted e :: map (λ l, Invoked l e) (responders s (event_of e))).
Proof.
  unfold emit_with_default, emit, reached, responders.
  destruct (listeners s (event_of e)) as [|l ls] eqn:Hls.
  - simpl. unfold once. rewrite Hls, listeners_set_listeners, set_listeners_twice. done.
  - simpl. rewrite Hls. f_equal. f_equal. by rewrite map_map.
Qed.

Lemma res_call_methods (c : ResCall) (res : Response) :
  res_methods (res_call c res) = res_methods res /\
  res_versions (res_call c res) = res_versions res.
Proof. done. Qed.

Lemma call_listener_keeps (l : Listener) (e : Emission) (req : Request) (res : Response) :
  res_methods (call_listener l e req res) = res_methods res /\
  res_versions (call_listener l e req res) = res_versions res.
Proof.
  destruct l as [|f]; [|done]. destruct e as [vs|ms|]; simpl; try done.
  unfold default405Handler. by destruct (String.eqb (req_method req) "OPTIONS").
Qed.

Lemma fold_call_listener_keeps (ls : list Registration) (e : Emission) (req : Request) :
  forall res,
    res_methods (fold_left (λ res r, call_listener (reg_listener r) e req res) ls res)
      = res_methods res /\
    res_versions (fold_left (λ res r, call_listener (reg_listener r) e req res) ls res)
      = res_versions res.
Proof.
  induction ls as [|l ls IH]; intros res; [done|]. simpl.
  destruct (IH (call_listener (reg_listener l) e req res)) as [-> ->].
  apply call_listener_keeps.
Qed.

(** The three-way choice of lines 492-507 is the precedence of the
    fallback outcomes. *)
Lemma findRoute_no_route `{RouteImpl} (s : Server) (req : Request) (res : Response) :
  sc_route (scan (routes s) req None [] []) = None ->
  let sc := scan (routes s) req None [] [] in
  let e := fallback_outcome (sc_versions sc) (sc_methods sc) in
  _findRoute s req res =
    mkFound None
      (set_listeners (event_of e)
         (filter (λ r, reg_once r = false) (listeners s (event_of e))) s)
      req
      (fold_left (λ res r, call_listener (reg_listener r) e req res)
         (reached s (event_of e))
         (with_accumulators (sc_methods sc) (sc_versions sc) res))
      (Emitted e :: map (λ l, Invoked l e) (responders s (event_of e))).
Proof.
  intros Hnone. cbv zeta. unfold _findRoute. rewrite Hnone.
  set (sc := scan (routes s) req None [] []).
  fold (with_accumulators (sc_methods sc) (sc_versions sc) res).
  destruct (sc_versions sc) as [|v vs] eqn:Hv.
  - destruct (sc_methods sc) as [|m ms] eqn:Hm;
      cbn [length Nat.eqb negb fallback_outcome]; by rewrite emit_with_default_spec.
  - cbn [length Nat.eqb negb fallback_outcome]. by rewrite emit_with_default_spec.
Qed.

(** C1: a table whose routes before [r] do not fully match the request
    and whose route [r] does resolves to [r], whatever is registered
    after it; the scan stops there: the routes after [r] are not
    visited, the loop ends in the state it has on the table cut after
    [r]. *)
Theorem findRoute_first_full_match `{RouteImpl} (s : Server) (req : Request)
    (res : Response) (before after : list Route) (r : Route) :
  routes s = before ++ r :: after ->
  Forall (λ r', fully_matches r' req = false) before ->
  fully_matches r req = true ->
  fr_route (_findRoute s req res) = Some r /\
  scan (before ++ r :: after) req None [] [] = scan (before ++ [r]) req None [] [].
Proof.
  intros Hrs Hbefore Hr.
  destruct (scan_skip before req Hbefore None [] []) as (p & m & v & Hskip).
  destruct (scan_cons_match r after req p m v Hr) as (q & Hq & Hafter).
  destruct (scan_cons_match r [] req p m v Hr) as (q' & Hq' & Hcut).
  assert (q' = q) as -> by congruence.
  split.
  - unfold _findRoute. rewrite Hrs, Hskip, Hafter. done.
  - by rewrite !Hskip, Hafter, Hcut.
Qed.

(** C2: when no route of the table fully matches the request,
    [_findRoute] returns no route and emits exactly one event, chosen by
    precedence: version mismatch with the accumulated versions if there
    are any, otherwise method mismatch with the accumulated methods if
    there are any, otherwise not found. The event reaches the user's
    listeners if there are any; otherwise the default responder is
    installed, answers, and is gone again. *)
Theorem findRoute_fallback_precedence `{RouteImpl} (s : Server) (req : Request)
    (res : Response) :
  Forall (λ r, fully_matches r req = false) (routes s) ->
  let sc := scan (routes s) req None [] [] in
  let e := fallback_outcome (sc_versions sc) (sc_methods sc) in
  let f := _findRoute s req res in
  fr_route f = None /\
  fr_trace f = Emitted e :: map (λ l, Invoked l e) (responders s (event_of e)) /\
  (listeners s (event_of e) = [] ->
   fr_res f = default_responder e req
                (with_accumulators (sc_methods sc) (sc_versions sc) res) /\
   fr_server f = s).
Proof.
  intros Hno. cbv zeta.
  rewrite findRoute_no_route by (by apply scan_no_match). cbv zeta. simpl.
  split_and!; [done | done |].
  intros Hls. unfold reached. rewrite Hls. simpl. split; [done|].
  rewrite filter_nil, <- Hls. apply set_listeners_same.
Qed.

(** C8, as the code has it: a resolution attempt leaves the route
    table, and the chains and formatters with it, as they were. When it
    finds a route, the server is untouched and the request gets the
    parameters of that route's path match. When it finds none, the request
    is left as it was, but the server is not: of the event that is emitted,
    the listeners registered by [once] are unregistered (the default
    responder installed for the occasion among them), and nothing else
    changes. What the user's own listeners do when called is not part of
    it. *)
Theorem findRoute_effects `{RouteImpl} (s : Server) (req : Request) (res : Response) :
  let f := _findRoute s req res in
  routes (fr_server f) = routes s /\
  chain (fr_server f) = chain s /\
  preChain (fr_server f) = preChain s /\
  formatters (fr_server f) = formatters s /\
  match fr_route f with
  | Some r =>
      fr_server f = s /\
      exists p, matchesUrl r (OfRequest req) = Some p /\
                fully_matches r req = true /\ fr_req f = set_params p req
  | None =>
      fr_req f = req /\ Forall (λ r, fully_matches r req = false) (routes s) /\
      let ev := event_of (fallback_outcome
                            (sc_versions (scan (routes s) req None [] []))
                            (sc_methods (scan (routes s) req None [] []))) in
      fr_server f = set_listeners ev (filter (λ r, reg_once r = false) (listeners s ev)) s
  end.
Proof.
  cbv zeta. pose proof (scan_route_inv (routes s) req None [] []) as Hinv.
  destruct (sc_route (scan (routes s) req None [] [])) as [r|] eqn:Hr.
  - destruct Hinv as (before & after & p & _ & _ & Hp & Hfull & Hsp).
    unfold _findRoute. rewrite Hr, Hsp. simpl. split_and!; try done. by exists p.
  - rewrite findRoute_no_route by done. cbv zeta. simpl. done.
Qed.

(** C8 as the specification words it, only the request context being
    mutated, fails on a server where the user has registered a NotFound
    listener with [once]: a GET /x request on an empty table leaves the
    server without that listener. *)
Lemma findRoute_unregisters_once_listener :
  fr_server (@_findRoute example_routes (once NotFound (UserListener 1) (with_routes []))
               (example_request "GET" "/x") fresh_response)
  <> once NotFound (UserListener 1) (with_routes []).
Proof.
  intros Heq. apply (f_equal on_NotFound) in Heq. vm_compute in Heq. discriminate.
Qed.

(** ** What the accumulators hold *)

Section Accumulators.
Context `{impl : RouteImpl}.

(** On a table without full match, [methods] ends up holding what it
    held and the methods of the routes that blame the method. *)
Lemma scan_methods_elem (rs : list Route) (req : Request) :
  Forall (λ r, fully_matches r req = false) rs ->
  forall params methods versions m,
    m ∈ sc_methods (scan rs req params methods versions) <->
    m ∈ methods \/ exists r, r ∈ rs /\ blames_method req r /\ rt_method r = m.
Proof.
  unfold blames_method.
  induction 1 as [|r rs Hr _ IH]; intros params methods versions m.
  - simpl. split; [by left|]. intros [Hm|(r & Hin & _)]; [done|].
    by apply not_elem_of_nil in Hin.
  - unfold fully_matches in Hr. simpl.
    destruct (matchesUrl r (OfRequest req)) as [p|] eqn:Hu.
    + destruct (matchesMethod r req) eqn:Hm.
      * destruct (matchesVersion r req); [done|]. rewrite IH. split.
        -- intros [?|(r' & Hin & Hb & Hrm)]; [by left|].
           right. exists r'. split; [by right | done].
        -- intros [?|(r' & Hin & Hb & Hrm)]; [by left|].
           apply elem_of_cons in Hin as [->|Hin].
           ++ destruct Hb as [_ Hb]. congruence.
           ++ right. by exists r'.
      * rewrite IH, push_unique_elem. split.
        -- intros [[?| ->]|(r' & Hin & Hb & Hrm)]; [by left | |].
           ++ right. exists r. split_and!; [by left | by rewrite Hu | done | done].
           ++ right. exists r'. split; [by right | done].
        -- intros [?|(r' & Hin & Hb & Hrm)]; [by left; left|].
           apply elem_of_cons in Hin as [->|Hin].
           ++ left. by right.
           ++ right. by exists r'.
    + rewrite IH. split.
      * intros [?|(r' & Hin & Hb & Hrm)]; [by left|].
        right. exists r'. split; [by right | done].
      * intros [?|(r' & Hin & Hb & Hrm)]; [by left|].
        apply elem_of_cons in Hin as [->|Hin].
        -- destruct Hb as [[q Hq] _]. congruence.
        -- right. by exists r'.
Qed.

(** Routes that fail on the path or on the method leave [versions]
    alone. *)
Lemma scan_versions_untouched (rs : list Route) (req : Request) :
  Forall (λ r, matchesUrl r (OfRequest req) = None \/ matchesMethod r req = false) rs ->
  forall params methods versions,
    sc_versions (scan rs req params methods versions) = versions.
Proof.
  induction 1 as [|r rs Hr _ IH]; intros params methods versions; [done|].
  simpl. destruct (matchesUrl r (OfRequest req)) as [p|] eqn:Hu; [|apply IH].
  destruct (matchesMethod r req) eqn:Hm; [|apply IH].
  by destruct Hr.
Qed.

End Accumulators.

Lemma default405Handler_calls (req : Request) (res : Response) (methods : list string) :
  res_calls (default405Handler req res methods) =
    res_calls res ++
      [CallHeader "Allow" (join ", " methods);
       CallSend (if String.eqb (req_method req) "OPTIONS"
                 then SendStatus 200
                 else SendError (BadMethodError
                        (req_url req +:+ " does not support " +:+ req_method req)))].
Proof.
  unfold default405Handler.
  destruct (String.eqb (req_method req) "OPTIONS"); simpl; by rewrite <- app_assoc.
Qed.

(** C5: on a table made of a GET route and a POST route for the same
    path, in either order, a request for that path with a method neither
    accepts is answered by a method mismatch whose methods are GET and
    POST, each once. *)
Theorem method_aggregation `{RouteImpl} (s : Server) (req : Request) (res : Response)
    (R1 R2 : Route) :
  routes s ≡ₚ [R1; R2] ->
  rt_method R1 = "GET" -> rt_method R2 = "POST" ->
  is_Some (matchesUrl R1 (OfRequest req)) ->
  is_Some (matchesUrl R2 (OfRequest req)) ->
  matchesMethod R1 req = false -> matchesMethod R2 req = false ->
  exists methods,
    fr_route (_findRoute s req res) = None /\
    fr_trace (_findRoute s req res) =
      Emitted (EmitMethodNotAllowed methods)
      :: map (λ l, Invoked l (EmitMethodNotAllowed methods)) (responders s MethodNotAllowed) /\
    res_methods (fr_res (_findRoute s req res)) = Some methods /\
    NoDup methods /\
    list_to_set methods = ({["GET"; "POST"]} : gset string).
Proof.
  intros Hperm Hget Hpost Hu1 Hu2 Hm1 Hm2.
  assert (Hall : Forall (λ r, r = R1 \/ r = R2) (routes s)).
  { rewrite Hperm. constructor; [by left|]. constructor; [by right | constructor]. }
  assert (Hblame : Forall (λ r, matchesUrl r (OfRequest req) = None \/
                                matchesMethod r req = false) (routes s)).
  { eapply Forall_impl; [exact Hall|]. intros r [-> | ->]; by right. }
  assert (Hno : Forall (λ r, fully_matches r req = false) (routes s)).
  { eapply Forall_impl; [exact Hall|]. unfold fully_matches.
    intros r [-> | ->]; simpl; [rewrite Hm1 | rewrite Hm2].
    all: by case_match. }
  pose proof (scan_versions_untouched (routes s) req Hblame None [] []) as Hv.
  pose proof (scan_methods_elem (routes s) req Hno None [] []) as Hm.
  destruct (scan_NoDup (routes s) req None [] []) as [Hnd _]; [constructor..|].
  set (sc := scan (routes s) req None [] []) in *.
  assert (Hset : list_to_set (sc_methods sc) = ({["GET"; "POST"]} : gset string)).
  { apply set_eq. intros m. rewrite elem_of_list_to_set, Hm. split.
    - intros [Hin|(r & Hin & _ & <-)]; [by apply not_elem_of_nil in Hin|].
      rewrite Hperm in Hin. set_unfold in Hin. set_unfold.
      destruct Hin as [->|[->|[]]]; [left | right]; done.
    - intros Hin. right. set_unfold in Hin. destruct Hin as [->| ->].
      + exists R1. rewrite Hperm. split_and!; [by left | done | done].
      + exists R2. rewrite Hperm. split_and!; [by right; left | done | done]. }
  exists (sc_methods sc).
  rewrite findRoute_no_route by (by apply scan_no_match). cbv zeta. fold sc. simpl.
  rewrite Hv. destruct (sc_methods sc) as [|m ms] eqn:Hsm.
  - exfalso. simpl in Hset. assert ("GET" ∈ (∅ : gset string)) as Hin; [|set_solver].
    rewrite Hset. set_solver.
  - simpl. split_and!; try done.
    destruct (fold_call_listener_keeps (reached s MethodNotAllowed)
                (EmitMethodNotAllowed (m :: ms)) req
                (with_accumulators (m :: ms) [] res)) as [-> _]. done.
Qed.

(** C6: when the outcome is a method mismatch and the user listens to
    no MethodNotAllowed event, the response is given an Allow header
    listing the accumulated methods, and then a bare 200 if the request
    is an OPTIONS request, a BadMethodError otherwise. *)
Theorem method_mismatch_default_response `{RouteImpl} (s : Server) (req : Request)
    (res : Response) (methods : list string) :
  Forall (λ r, fully_matches r req = false) (routes s) ->
  fallback_outcome (sc_versions (scan (routes s) req None [] []))
                   (sc_methods (scan (routes s) req None [] []))
    = EmitMethodNotAllowed methods ->
  listeners s MethodNotAllowed = [] ->
  res_calls (fr_res (_findRoute s req res)) =
    res_calls res ++
      [CallHeader "Allow" (join ", " methods);
       CallSend (if String.eqb (req_method req) "OPTIONS"
                 then SendStatus 200
                 else SendError (BadMethodError
                        (req_url req +:+ " does not support " +:+ req_method req)))].
Proof.
  intros Hno He Hls.
  rewrite findRoute_no_route by (by apply scan_no_match). cbv zeta. simpl.
  rewrite He. simpl. unfold reached. rewrite Hls. simpl.
  by rewrite default405Handler_calls.
Qed.

(** ** Properties of registration and removal *)

Lemma addRoute_spec `{RouteImpl} (method : string) (options : RouteOptions)
    (handlers : list value) (s : Server) (r : Route) (s1 : Server) :
  _addRoute method options handlers s = inr (r, s1) ->
  rt_handlers r = chain s ++ flatten_all handlers /\
  rt_id r = next_id s /\
  chain s1 = chain s /\
  last (routes s1) = Some r.
Proof.
  unfold _addRoute. rewrite argsToChain_flatten. intros [= <- <-]. simpl.
  split_and!; try done. apply last_snoc.
Qed.

Lemma route_verb_spec `{RouteImpl} (v : Verb) (options : RouteSpec)
    (handlers : list value) (s : Server) (r : Route) (s1 : Server) :
  route_verb v options handlers s = inr (r, s1) ->
  rt_handlers r = chain s ++ flatten_all handlers /\
  rt_id r = next_id s /\
  chain s1 = chain s /\
  last (routes s1) = Some r.
Proof.
  unfold route_verb. destruct (Nat.ltb _ _); [done|].
  destruct options as [u|o|]; [apply addRoute_spec..|done].
Qed.

Lemma use_spec `{RouteImpl} (args : list value) (s s' : Server) :
  use args s = inr s' ->
  match flatten_all args with
  | [] => s' = s
  | c => chain s' = chain s ++ c /\
         routes s' = map (λ r, route_use r c) (routes s)
  end.
Proof.
  unfold use. rewrite argsToChain_flatten.
  destruct (flatten_all args) as [|h c]; simpl; by intros [= <-].
Qed.

(** Where the clause on later [use] calls rests: it holds of any
    [Route.use] that leaves identity and chain of the route alone. *)
Lemma use_keeps_if_route_use_inert `{RouteImpl} :
  (forall r c, rt_id (route_use r c) = rt_id r /\
               rt_handlers (route_use r c) = rt_handlers r) ->
  use_keeps_registered_chains.
Proof.
  intros Hinert v options handlers args s s1 s2 r Hreg Huse.
  apply route_verb_spec in Hreg as (Hch & _ & _ & Hlast).
  apply use_spec in Huse. destruct (flatten_all args) as [|h c].
  - subst s2. by exists r.
  - destruct Huse as [_ ->]. exists (route_use r (h :: c)).
    change (map ?f ?l) with (f <$> l). rewrite fmap_last, Hlast.
    destruct (Hinert r (h :: c)) as [-> ->]. done.
Qed.

(** What server.js itself does, whatever [Route.use] is: a route
    registered through a verb method is constructed with the global chain
    as it stands at that moment followed by the flattened handlers of the
    registration, and is the last of the table. A later [use] whose
    flattened handler list is empty changes nothing; otherwise it appends
    the list to the global chain and hands it to the [use] method of every
    registered route. *)
Lemma registered_chain_and_later_use `{RouteImpl} (v : Verb) (options : RouteSpec)
    (handlers args : list value) (s s1 s2 : Server) (r : Route) :
  route_verb v options handlers s = inr (r, s1) ->
  use args s1 = inr s2 ->
  rt_handlers r = chain s ++ flatten_all handlers /\
  last (routes s1) = Some r /\
  chain s2 = chain s ++ flatten_all args /\
  routes s2 = match flatten_all args with
              | [] => routes s1
              | c => map (λ r', route_use r' c) (routes s1)
              end.
Proof.
  intros Hreg Huse.
  apply route_verb_spec in Hreg as (Hch & _ & Hc1 & Hlast).
  apply use_spec in Huse. split_and!; [done | done | |].
  - destruct (flatten_all args) as [|h c].
    + subst s2. by rewrite app_nil_r.
    + destruct Huse as [-> _]. by rewrite Hc1.
  - destruct (flatten_all args) as [|h c]; [by subst s2 | by destruct Huse].
Qed.



Lemma rm_loop_inv (name : RmArg) (rs : list Route) :
  match rm_loop name rs with
  | Some rs' =>
      exists before r after,
        rs = before ++ r :: after /\
        Forall (λ x, rm_matches name x = false) before /\
        rm_matches name r = true /\ rs' = before ++ after
  | None => Forall (λ x, rm_matches name x = false) rs
  end.
Proof.
  induction rs as [|r rs IH]; simpl; [by constructor|].
  destruct (rm_matches name r) eqn:Hr.
  - exists [], r, rs. split_and!; try done.
  - destruct (rm_loop name rs) as [rs'|].
    + destruct IH as (before & r' & after & -> & Hb & Hr' & ->).
      exists (r :: before), r', after. split_and!; try done. by constructor.
    + by constructor.
Qed.

Lemma rm_loop_none (name : RmArg) (rs : list Route) :
  Forall (λ x, rm_matches name x = false) rs -> rm_loop name rs = None.
Proof.
  induction 1 as [|r rs Hr _ IH]; simpl; [done|]. by rewrite Hr, IH.
Qed.

Lemma filter_name_nil (n : string) (rs : list Route) :
  filter (λ r, rt_name r = n) rs = [] ->
  Forall (λ x, rm_matches (RmName n) x = false) rs.
Proof.
  induction rs as [|r rs IH]; [by constructor|].
  rewrite filter_cons. case_decide as Hn; [done|].
  intros Hnil. constructor; [|by apply IH].
  simpl. by apply String.eqb_neq.
Qed.

Lemma filter_name_matches (n : string) (rs : list Route) :
  Forall (λ x, rm_matches (RmName n) x = false) rs ->
  filter (λ r, rt_name r = n) rs = [].
Proof.
  induction 1 as [|r rs Hr _ IH]; [done|].
  rewrite filter_cons_False; [done|]. simpl in Hr. by apply String.eqb_neq in Hr.
Qed.

(** C7: on a table with exactly one route of name [n], [rm] by that
    name returns true and removes that route, the routes before and
    after it staying in place; the same call on the result returns false
    and changes nothing. *)
Theorem rm_twice (n : string) (s : Server) :
  length (filter (λ r, rt_name r = n) (routes s)) = 1%nat ->
  exists s' before r after,
    rm (RmName n) s = inr (true, s') /\
    rm (RmName n) s' = inr (false, s') /\
    routes s = before ++ r :: after /\ rt_name r = n /\
    routes s' = before ++ after.
Proof.
  intros Hone. unfold rm.
  pose proof (rm_loop_inv (RmName n) (routes s)) as Hinv.
  destruct (rm_loop (RmName n) (routes s)) as [rs'|].
  - destruct Hinv as (before & r & after & Hrs & Hb & Hr & ->).
    simpl in Hr. apply String.eqb_eq in Hr.
    rewrite Hrs, filter_app, filter_cons_True, (filter_name_matches n before Hb) in Hone
      by done.
    simpl in Hone. injection Hone as Hafter. apply nil_length_inv in Hafter.
    apply filter_name_nil in Hafter.
    exists (set_routes (before ++ after) s), before, r, after.
    split_and!; try done. simpl.
    rewrite rm_loop_none; [done|]. by apply Forall_app.
  - rewrite (filter_name_matches n _ Hinv) in Hone. done.
Qed.

(** ** Properties of the pre-chain *)

Lemma series_app `{Handlers} (ts1 ts2 : list Task) :
  forall req res,
    series (ts1 ++ ts2) req res =
      match series ts1 req res with
      | (SeriesOk, req1, res1) => series ts2 req1 res1
      | other => other
      end.
Proof.
  induction ts1 as [|t ts1 IH]; intros req res; [done|]. simpl.
  destruct (hr_outcome (run_task t req res)) as [arg| |e]; [|done..].
  destruct (value_truthy arg); [done | apply IH].
Qed.

(** The series over a pre-chain in which a handler signals an error
    ends with that error, in the state that handler left. *)
Lemma series_error `{Handlers} (hs1 hs2 : list value) (h : value) (rest : list Task)
    (req req1 req2 : Request) (res res1 res2 : Response) (err : value) :
  series (map HandlerTask hs1) req res = (SeriesOk, req1, res1) ->
  call_value h req1 res1 = mkRun req2 res2 (Callback err) ->
  value_truthy err = true ->
  series (map HandlerTask (hs1 ++ h :: hs2) ++ rest) req res = (SeriesErr err, req2, res2).
Proof.
  intros Hok Hcall Herr.
  rewrite map_app, <- app_assoc, series_app, Hok. simpl.
  rewrite Hcall. simpl. by rewrite Herr.
Qed.

(** C4: when the handlers of the pre-chain before [h] all proceed and
    [h] signals the error [err], [_request] sends [err] on the response
    as [h] left it and ends: nothing is emitted, no route is run, the
    handlers after [h] are not called, and the request is as [h] left it,
    no parameters bound by the dispatcher. *)
Theorem prechain_error_skips_routing `{RouteImpl} `{Handlers} (s : Server)
    (hs1 hs2 : list value) (h : value)
    (req req1 req2 : Request) (res res1 res2 : Response) (err : value) :
  preChain s = hs1 ++ h :: hs2 ->
  series (map HandlerTask hs1) req res = (SeriesOk, req1, res1) ->
  call_value h req1 res1 = mkRun req2 res2 (Callback err) ->
  value_truthy err = true ->
  _request s req res = mkDispatch Completed s req2 (send (SendValue err) res2) [].
Proof.
  intros Hpre Hok Hcall Herr. unfold _request.
  by rewrite Hpre, (series_error hs1 hs2 h [EnsureTask] req req1 req2 res res1 res2 err).
Qed.

(** ** Properties of the [acceptable] getter *)

Lemma fold_push_unique (acc : list string) :
  forall seen, NoDup seen ->
    exists tail,
      fold_left push_unique acc seen = seen ++ tail /\
      NoDup (seen ++ tail) /\
      tail `sublist_of` acc /\
      (forall a, a ∈ tail <-> a ∈ acc /\ a ∉ seen).
Proof.
  induction acc as [|x acc IH]; intros seen Hnd.
  - exists []. rewrite app_nil_r. split_and!; try done.
    intros a. split; [intros Ha | intros [Ha _]]; by apply not_elem_of_nil in Ha.
  - simpl. rewrite push_unique_decide. case_decide as Hx.
    + destruct (IH seen Hnd) as (tail & Heq & Hnd' & Hsub & Hmem).
      exists tail. split_and!; try done.
      * by apply sublist_cons.
      * intros a. rewrite Hmem, elem_of_cons. split; [tauto|].
        intros [[->|Ha] Hns]; [contradiction | done].
    + assert (NoDup (seen ++ [x])) as Hnd1.
      { apply NoDup_app. split_and!; [done | | apply NoDup_singleton].
        intros y Hy Hy'. apply list_elem_of_singleton in Hy'. by subst. }
      destruct (IH (seen ++ [x]) Hnd1) as (tail & Heq & Hnd' & Hsub & Hmem).
      exists (x :: tail). rewrite Heq, <- app_assoc. simpl.
      split_and!; try done.
      * by rewrite <- app_assoc in Hnd'.
      * by apply sublist_skip.
      * intros a. rewrite !elem_of_cons, Hmem, elem_of_app, list_elem_of_singleton.
        destruct (decide (a = x)) as [->|Hne]; [tauto|]. tauto.
Qed.

(** C9: the acceptable-types list is the keys of the formatters
    object, in their order, followed by those entries of
    [Response.ACCEPTABLE] that are not among the keys, in their order;
    no type occurs twice. *)
Theorem acceptable_formatters_then_fallbacks `{ResponseStatics} (s : Server) :
  wf_object (formatters s) ->
  exists fallbacks,
    acceptable s = map fst (formatters s) ++ fallbacks /\
    NoDup (acceptable s) /\
    fallbacks `sublist_of` ACCEPTABLE /\
    (forall a, a ∈ fallbacks <-> a ∈ ACCEPTABLE /\ a ∉ map fst (formatters s)).
Proof.
  intros Hwf. unfold acceptable.
  destruct (fold_push_unique ACCEPTABLE (map fst (formatters s)) Hwf)
    as (tail & Heq & Hnd & Hsub & Hmem).
  exists tail. rewrite Heq. done.
Qed.

(** ** The theorems at concrete servers *)

(** Three GET routes, two of them for /x: a GET /x request resolves to
    the first of the two. *)
Lemma findRoute_first_full_match_witness :
  let rA := example_route 0 "GET" "/a" None in
  let rB := example_route 1 "GET" "/x" None in
  let rC := example_route 2 "GET" "/x" None in
  fr_route (@_findRoute example_routes (with_routes [rA; rB; rC])
              (example_request "GET" "/x") fresh_response) = Some rB /\
  @scan example_routes ([rA] ++ rB :: [rC]) (example_request "GET" "/x") None [] []
  = @scan example_routes ([rA] ++ [rB]) (example_request "GET" "/x") None [] [].
Proof.
  intros rA rB rC.
  apply (@findRoute_first_full_match example_routes (with_routes [rA; rB; rC])
           (example_request "GET" "/x") fresh_response [rA] [rC] rB).
  - reflexivity.
  - constructor; [reflexivity | constructor].
  - reflexivity.
Defined.

(** One GET /x route for version 1.0 and a request for version 3.0:
    a version mismatch, answered by the default responder. *)
Lemma findRoute_fallback_precedence_witness :
  let s := with_routes [example_route 0 "GET" "/x" (Some "1.0")] in
  let req := mkRequest "GET" "/x" "/x" ["3.0"] None in
  let f := @_findRoute example_routes s req fresh_response in
  fr_route f = None /\
  fr_trace f = [Emitted (EmitVersionNotAllowed ["1.0"]);
                Invoked DefaultResponder (EmitVersionNotAllowed ["1.0"])] /\
  fr_server f = s.
Proof.
  intros s req f.
  destruct (@findRoute_fallback_precedence example_routes s req fresh_response)
    as (Hroute & Htrace & Hdefault).
  - constructor; [reflexivity | constructor].
  - split; [exact Hroute|]. split; [exact Htrace|]. apply Hdefault. reflexivity.
Defined.


(** A pre-chain of four handlers, the third of which signals an error:
    the error is sent, the request keeps what the second handler bound
    and nothing else. *)
Lemma prechain_error_skips_routing_witness :
  let s := set_preChain [VFun 0; VFun 1; VFun 5; VFun 0]
             (with_routes [example_route 0 "GET" "/x" None]) in
  let req := example_request "GET" "/x" in
  @_request example_routes example_handlers s req fresh_response
  = mkDispatch Completed s (set_params [("seen", "yes")] req)
      (send (SendValue (VObj 5)) fresh_response) [].
Proof.
  intros s req.
  apply (@prechain_error_skips_routing example_routes example_handlers s
           [VFun 0; VFun 1] [VFun 0] (VFun 5)
           req (set_params [("seen", "yes")] req) (set_params [("seen", "yes")] req)
           fresh_response fresh_response fresh_response (VObj 5)); reflexivity.
Defined.

(** POST /x registered before GET /x, and a DELETE /x request. *)
Lemma method_aggregation_witness :
  let R1 := example_route 1 "GET" "/x" None in
  let R2 := example_route 0 "POST" "/x" None in
  let f := @_findRoute example_routes (with_routes [R2; R1])
             (example_request "DELETE" "/x") fresh_response in
  exists methods,
    fr_route f = None /\
    fr_trace f = Emitted (EmitMethodNotAllowed methods)
                 :: map (λ l, Invoked l (EmitMethodNotAllowed methods))
                      (responders (with_routes [R2; R1]) MethodNotAllowed) /\
    res_methods (fr_res f) = Some methods /\
    NoDup methods /\
    list_to_set methods = ({["GET"; "POST"]} : gset string).
Proof.
  intros R1 R2 f.
  apply (@method_aggregation example_routes (with_routes [R2; R1])
           (example_request "DELETE" "/x") fresh_response R1 R2).
  - apply perm_swap.
  - reflexivity.
  - reflexivity.
  - exists []. reflexivity.
  - exists []. reflexivity.
  - reflexivity.
  - reflexivity.
Defined.

(** GET /x alone and a DELETE /x request. *)
Lemma method_mismatch_default_response_witness :
  res_calls (fr_res (@_findRoute example_routes
                       (with_routes [example_route 0 "GET" "/x" None])
                       (example_request "DELETE" "/x") fresh_response))
  = [CallHeader "Allow" "GET";
     CallSend (SendError (BadMethodError "/x does not support DELETE"))].
Proof.
  apply (@method_mismatch_default_response example_routes
           (with_routes [example_route 0 "GET" "/x" None])
           (example_request "DELETE" "/x") fresh_response ["GET"]).
  - constructor; [reflexivity | constructor].
  - reflexivity.
  - reflexivity.
Defined.

(** Three routes with three names: removing the middle one twice. *)
Lemma rm_twice_witness :
  let rs := [example_route 0 "GET" "/a" None; example_route 1 "GET" "/x" None;
             example_route 2 "PUT" "/x" None] in
  exists s' before r after,
    rm (RmName "GET /x") (with_routes rs) = inr (true, s') /\
    rm (RmName "GET /x") s' = inr (false, s') /\
    routes (with_routes rs) = before ++ r :: after /\ rt_name r = "GET /x" /\
    routes s' = before ++ after.
Proof.
  intros rs. apply (rm_twice "GET /x" (with_routes rs)). reflexivity.
Defined.

(** Two formatters, one of them for a built-in type. *)
Lemma acceptable_formatters_then_fallbacks_witness :
  let s := new_Server [("text/plain", 0%nat); ("application/xml", 1%nat)] None None false in
  exists fallbacks,
    @acceptable example_statics s = map fst (formatters s) ++ fallbacks /\
    NoDup (@acceptable example_statics s) /\
    fallbacks `sublist_of` @ACCEPTABLE example_statics /\
    (forall a, a ∈ fallbacks <->
               a ∈ @ACCEPTABLE example_statics /\ a ∉ map fst (formatters s)).
Proof.
  intros s. apply (@acceptable_formatters_then_fallbacks example_statics s).
  unfold wf_object. simpl. apply (bool_decide_unpack _). reflexivity.
Defined.

(** ** Worked examples *)

Example acceptable_example :
  @acceptable example_statics
    (new_Server [("text/plain", 0%nat); ("application/xml", 1%nat)] None None false)
  = ["text/plain"; "application/xml"; "application/json"; "application/octet-stream"].
Proof. reflexivity. Qed.

Example options_on_method_mismatch :
  res_calls (default405Handler (example_request "OPTIONS" "/x") fresh_response
               ["GET"; "POST"])
  = [CallHeader "Allow" "GET, POST"; CallSend (SendStatus 200)].
Proof. reflexivity. Qed.

Example delete_on_method_mismatch :
  res_calls (default405Handler (example_request "DELETE" "/x") fresh_response
               ["GET"; "POST"])
  = [CallHeader "Allow" "GET, POST";
     CallSend (SendError (BadMethodError "/x does not support DELETE"))].
Proof. reflexivity. Qed.

(** Routes for versions 2.0 and 1.0 of GET /x: a request for 1.0
    resolves to the second, a request for 3.0 is a version mismatch
    naming both. *)
Example version_selection :
  let s := with_routes [example_route 0 "GET" "/x" (Some "2.0");
                        example_route 1 "GET" "/x" (Some "1.0")] in
  rt_id <$> fr_route (@_findRoute example_routes s
                        (mkRequest "GET" "/x" "/x" ["1.0"] None) fresh_response)
    = Some 1%nat /\
  fr_trace (@_findRoute example_routes s
              (mkRequest "GET" "/x" "/x" ["3.0"] None) fresh_response)
    = [Emitted (EmitVersionNotAllowed ["2.0"; "1.0"]);
       Invoked DefaultResponder (EmitVersionNotAllowed ["2.0"; "1.0"])].
Proof. split; reflexivity. Qed.

(** Two GET routes and a POST route for /x: GET is recorded once. *)
Example allowed_methods_deduplicated :
  let s := with_routes [example_route 0 "GET" "/x" (Some "1.0");
                        example_route 1 "POST" "/x" None;
                        example_route 2 "GET" "/x" (Some "2.0")] in
  fr_trace (@_findRoute example_routes s (example_request "DELETE" "/x") fresh_response)
    = [Emitted (EmitMethodNotAllowed ["GET"; "POST"]);
       Invoked DefaultResponder (EmitMethodNotAllowed ["GET"; "POST"])].
Proof. reflexivity. Qed.

(** A user's listener replaces the default responder. *)
Example user_listener_answers :
  let s := on NotFound (UserListener 9) (with_routes []) in
  let f := @_findRoute example_routes s (example_request "GET" "/nowhere") fresh_response in
  fr_trace f = [Emitted EmitNotFound; Invoked (UserListener 9) EmitNotFound] /\
  res_calls (fr_res f) = [].
Proof. split; reflexivity. Qed.

(** A matched request runs the route after the default headers. *)
Example request_runs_route :
  let r := example_route 0 "GET" "/x" None in
  let d := @_request example_routes example_handlers
             (set_preChain [VFun 0] (with_routes [r]))
             (example_request "GET" "/x") fresh_response in
  d_trace d = [RouteRun r] /\ req_params (d_req d) = Some [] /\
  res_calls (d_res d) = [CallDefaultHeaders] /\
  res_serverName (d_res d) = Some "restify".
Proof. repeat split; reflexivity. Qed.

(** Removing by route object goes by identity. *)
Example rm_by_route :
  let r := example_route 1 "GET" "/x" None in
  rm (RmRoute r) (with_routes [example_route 0 "GET" "/x" None; r])
  = inr (true, with_routes [example_route 0 "GET" "/x" None]).
Proof. reflexivity. Qed.

(** ** Properties of [listen] *)

Lemma digit_not_whitespace (c : ascii) : is_digit c = true -> is_whitespace c = false.
Proof.
  unfold is_digit, is_whitespace. generalize (nat_of_ascii c). intros n Hd.
  apply andb_prop in Hd as [Hlo Hhi].
  apply Nat.leb_le in Hlo. apply Nat.leb_le in Hhi.
  repeat (apply orb_false_intro); apply Nat.eqb_neq; lia.
Qed.

Lemma digit_not_sign (c : ascii) :
  is_digit c = true -> Ascii.eqb c "-" = false /\ Ascii.eqb c "+" = false.
Proof.
  intros Hd. split; apply Ascii.eqb_neq; intros ->; discriminate.
Qed.

Lemma digits_prefix_all (s : string) :
  Forall (λ c, is_digit c = true) (String.list_ascii_of_string s) ->
  forall n, exists m, digits_prefix s (Some n) = Some m.
Proof.
  induction s as [|c s IH]; intros Hall n; simpl; [by exists n|].
  apply Forall_cons in Hall as [Hc Hs]. rewrite Hc. apply IH, Hs.
Qed.

Lemma toPort_all_digits (s : string) :
  all_digits s -> exists n, toPort s = Port (Int false n).
Proof.
  intros [Hne Hall]. destruct s as [|c s]; [done|].
  simpl in Hall. apply Forall_cons in Hall as [Hc Hs].
  unfold toPort, parseInt10. simpl.
  rewrite (digit_not_whitespace c Hc). unfold strip_sign.
  destruct (digit_not_sign c Hc) as [-> ->]. simpl. rewrite Hc.
  destruct (digits_prefix_all s Hs (10 * 0 + digit_value c)%N) as [m ->].
  by exists m.
Qed.

(** X1: a string of decimal digits as first argument makes [listen]
    throw: a port given as a string is taken for a pipe name and
    refused. *)
Theorem listen_rejects_numeric_string (s : string) (rest : list value) :
  all_digits s ->
  listen (VPrim (PStr s) :: rest) = inl (TypeError (s +:+ " is not a named pipe")).
Proof.
  intros Hs. destruct (toPort_all_digits s Hs) as [n Hn].
  unfold listen, isPipeName. by rewrite Hn.
Qed.

Lemma listen_rejects_numeric_string_witness :
  listen [VPrim (PStr "8080"); VFun 1] = inl (TypeError "8080 is not a named pipe").
Proof.
  apply (listen_rejects_numeric_string "8080" [VFun 1]).
  split; [discriminate | repeat constructor].
Defined.

Lemma toPort_not_numeric (c : ascii) (s : string) :
  is_whitespace c = false -> is_digit c = false ->
  Ascii.eqb c "-" = false -> Ascii.eqb c "+" = false ->
  toPort (String c s) = NotAPort.
Proof.
  intros Hw Hd Hm Hp. unfold toPort, parseInt10. simpl.
  rewrite Hw. unfold strip_sign. rewrite Hm, Hp. simpl. by rewrite Hd.
Qed.

(** X2: a string that starts with an ASCII character which is neither
    white space, nor a sign, nor a digit (a path, say) is a pipe name:
    [listen] listens on it, enabling DTrace unless the argument before the
    last is [false], and keeps the last argument as callback if it is a
    function. The first character being ASCII, nothing here depends on the
    white space beyond code unit 127 or on how the rest of the string is
    encoded. *)
Theorem listen_on_pipe (c : ascii) (s : string) (rest : list value) :
  (nat_of_ascii c < 128)%nat ->
  is_whitespace c = false -> is_digit c = false ->
  Ascii.eqb c "-" = false -> Ascii.eqb c "+" = false ->
  exists dtrace callback,
    listen (VPrim (PStr (String c s)) :: rest)
      = inr (mkListening (OnPipe (String c s)) dtrace callback) /\
    (callback = match last (VPrim (PStr (String c s)) :: rest) with
                | Some (VFun f) => Some f
                | _ => None
                end) /\
    (rest = [] -> dtrace = true).
Proof.
  intros _ Hw Hd Hm Hp. eexists _, _. unfold listen, isPipeName.
  rewrite (toPort_not_numeric c s Hw Hd Hm Hp). split; [reflexivity|].
  split; [reflexivity|]. by intros ->.
Qed.

Lemma listen_on_pipe_witness :
  exists dtrace callback,
    listen [VPrim (PStr "/tmp/server.sock"); VFun 3]
      = inr (mkListening (OnPipe "/tmp/server.sock") dtrace callback) /\
    (callback = match last [VPrim (PStr "/tmp/server.sock"); VFun 3] with
                | Some (VFun f) => Some f
                | _ => None
                end) /\
    ([VFun 3] = [] -> dtrace = true).
Proof.
  apply (listen_on_pipe "/" "tmp/server.sock" [VFun 3]); [by apply Nat.ltb_lt | reflexivity..].
Defined.

(** X3: a [listen] that succeeds with DTrace disabled was given three
    arguments at least: with two, the [false] that disables DTrace is
    the first argument and is refused as a port. *)
Theorem listen_dtrace_off_needs_three (args : list value) (l : Listening) :
  listen args = inr l -> l_dtrace l = false -> (3 <= length args)%nat.
Proof.
  destruct args as [|a [|b [|c rest]]]; [..|intros _ _; simpl; lia].
  all: unfold listen; intros Hl Hoff; exfalso.
  all: repeat case_match; simplify_eq; simpl in *; done.
Qed.

Lemma listen_dtrace_off_needs_three_witness :
  (3 <= length [VPrim (PNum 80); VPrim (PBool false); VFun 1])%nat.
Proof.
  apply (listen_dtrace_off_needs_three
           [VPrim (PNum 80); VPrim (PBool false); VFun 1]
           (mkListening (OnPort 80 "0.0.0.0") false (Some 1%nat))); reflexivity.
Defined.

Example listen_false_callback_throws :
  listen [VPrim (PBool false); VFun 1] = inl (TypeError "port (Number) required").
Proof. reflexivity. Qed.

Example listen_negative_number_string_is_pipe :
  listen [VPrim (PStr "-5")] = inr (mkListening (OnPipe "-5") true None).
Proof. reflexivity. Qed.

Example listen_port_and_host :
  listen [VPrim (PNum 80); VPrim (PStr "127.0.0.1"); VFun 2]
  = inr (mkListening (OnPort 80 "127.0.0.1") true (Some 2%nat)).
Proof. reflexivity. Qed.

(** ** Further properties of route resolution *)

Section MoreResolution.
Context `{impl : RouteImpl}.

(** On a table without full match, [versions] ends up holding what it
    held and the versions the routes blame. *)
Lemma scan_versions_elem (rs : list Route) (req : Request) :
  Forall (λ r, fully_matches r req = false) rs ->
  forall params methods versions v,
    v ∈ sc_versions (scan rs req params methods versions) <->
    v ∈ versions \/ exists r, r ∈ rs /\ blames_version req r v.
Proof.
  unfold blames_version.
  induction 1 as [|r rs Hr _ IH]; intros params methods versions v.
  - simpl. split; [by left|]. intros [Hv|(r & Hin & _)]; [done|].
    by apply not_elem_of_nil in Hin.
  - unfold fully_matches in Hr. simpl.
    destruct (matchesUrl r (OfRequest req)) as [p|] eqn:Hu.
    + destruct (matchesMethod r req) eqn:Hm.
      * destruct (matchesVersion r req) eqn:Hv; [done|]. rewrite IH.
        destruct (rt_version r) as [w|] eqn:Hw; simpl.
        -- destruct (String.eqb_spec w "") as [->|Hne]; simpl.
           ++ split.
              ** intros [?|(r' & Hin & Hb)]; [by left|].
                 right. exists r'. split; [by right | done].
              ** intros [?|(r' & Hin & Hb)]; [by left|].
                 apply elem_of_cons in Hin as [->|Hin].
                 --- destruct Hb as (_ & _ & _ & Hb & Hb'). congruence.
                 --- right. by exists r'.
           ++ rewrite push_unique_elem. split.
              ** intros [[?| ->]|(r' & Hin & Hb)]; [by left | |].
                 --- right. exists r. split; [by left|]. by rewrite Hu.
                 --- right. exists r'. split; [by right | done].
              ** intros [?|(r' & Hin & Hb)]; [by left; left|].
                 apply elem_of_cons in Hin as [->|Hin].
                 --- left. right. destruct Hb as (_ & _ & _ & Hb & _). congruence.
                 --- right. by exists r'.
        -- split.
           ++ intros [?|(r' & Hin & Hb)]; [by left|].
              right. exists r'. split; [by right | done].
           ++ intros [?|(r' & Hin & Hb)]; [by left|].
              apply elem_of_cons in Hin as [->|Hin].
              ** destruct Hb as (_ & _ & _ & Hb & _). congruence.
              ** right. by exists r'.
      * rewrite IH. split.
        -- intros [?|(r' & Hin & Hb)]; [by left|].
           right. exists r'. split; [by right | done].
        -- intros [?|(r' & Hin & Hb)]; [by left|].
           apply elem_of_cons in Hin as [->|Hin].
           ++ destruct Hb as (_ & Hb & _). congruence.
           ++ right. by exists r'.
    + rewrite IH. split.
      * intros [?|(r' & Hin & Hb)]; [by left|].
        right. exists r'. split; [by right | done].
      * intros [?|(r' & Hin & Hb)]; [by left|].
        apply elem_of_cons in Hin as [->|Hin].
        -- destruct Hb as ([q Hq] & _). congruence.
        -- right. by exists r'.
Qed.

End MoreResolution.

(** X4: after a resolution that finds no route, [res.methods] and
    [res.versions] hold, each once, the methods of the routes whose path
    matches and whose method does not, and the versions of the routes
    whose path and method match and whose version does not. *)
Theorem failed_resolution_accumulators `{RouteImpl} (s : Server) (req : Request)
    (res : Response) :
  Forall (λ r, fully_matches r req = false) (routes s) ->
  exists methods versions,
    res_methods (fr_res (_findRoute s req res)) = Some methods /\
    res_versions (fr_res (_findRoute s req res)) = Some versions /\
    NoDup methods /\ NoDup versions /\
    (forall m, m ∈ methods <->
               exists r, r ∈ routes s /\ blames_method req r /\ rt_method r = m) /\
    (forall v, v ∈ versions <-> exists r, r ∈ routes s /\ blames_version req r v).
Proof.
  intros Hno.
  pose proof (scan_methods_elem (routes s) req Hno None [] []) as Hm.
  pose proof (scan_versions_elem (routes s) req Hno None [] []) as Hv.
  destruct (scan_NoDup (routes s) req None [] []) as [Hndm Hndv]; [constructor..|].
  set (sc := scan (routes s) req None [] []) in *.
  exists (sc_methods sc), (sc_versions sc).
  rewrite findRoute_no_route by (by apply scan_no_match). cbv zeta. fold sc. simpl.
  destruct (fold_call_listener_keeps
              (reached s (event_of (fallback_outcome (sc_versions sc) (sc_methods sc))))
              (fallback_outcome (sc_versions sc) (sc_methods sc)) req
              (with_accumulators (sc_methods sc) (sc_versions sc) res)) as [-> ->].
  split_and!; try done.
  - intros m. rewrite Hm. split; [|by right].
    intros [Hin|?]; [by apply not_elem_of_nil in Hin | done].
  - intros v. rewrite Hv. split; [|by right].
    intros [Hin|?]; [by apply not_elem_of_nil in Hin | done].
Qed.

(** X5: a resolution that finds no route ends in the not-found outcome
    exactly when no route blames the method and none blames a version;
    a single route that does turns the 404 into a 405 or a version
    error. *)
Theorem not_found_iff_nothing_blamed `{RouteImpl} (s : Server) (req : Request)
    (res : Response) :
  Forall (λ r, fully_matches r req = false) (routes s) ->
  hd_error (fr_trace (_findRoute s req res)) = Some (Emitted EmitNotFound) <->
  (forall r, r ∈ routes s -> ~ blames_method req r /\ forall v, ~ blames_version req r v).
Proof.
  intros Hno.
  pose proof (scan_methods_elem (routes s) req Hno None [] []) as Hm.
  pose proof (scan_versions_elem (routes s) req Hno None [] []) as Hv.
  rewrite findRoute_no_route by (by apply scan_no_match). cbv zeta. simpl.
  set (sc := scan (routes s) req None [] []) in *.
  split.
  - intros He r Hr. destruct (sc_versions sc) as [|v vs] eqn:Hvs; [|done].
    destruct (sc_methods sc) as [|m ms] eqn:Hms; [|done].
    split.
    + intros Hb. assert (rt_method r ∈ ([] : list string)) as Hin; [|by apply not_elem_of_nil in Hin].
      apply Hm. right. by exists r.
    + intros v Hb. assert (v ∈ ([] : list string)) as Hin; [|by apply not_elem_of_nil in Hin].
      apply Hv. right. by exists r.
  - intros Hnone. destruct (sc_versions sc) as [|v vs] eqn:Hvs.
    + destruct (sc_methods sc) as [|m ms] eqn:Hms; [done|]. exfalso.
      destruct (proj1 (Hm m)) as [Hin|(r & Hr & Hb & _)]; [by left | |].
      * by apply not_elem_of_nil in Hin.
      * by destruct (Hnone r Hr) as [Hnb _].
    + exfalso. destruct (proj1 (Hv v)) as [Hin|(r & Hr & Hb)]; [by left | |].
      * by apply not_elem_of_nil in Hin.
      * destruct (Hnone r Hr) as [_ Hnb]. by apply (Hnb v).
Qed.

(** ** Further properties of the emitter and of [_request] *)

Lemma listeners_set_listeners_ne (ev ev' : Event) (ls : list Registration) (s : Server) :
  ev <> ev' -> listeners (set_listeners ev ls s) ev' = listeners s ev'.
Proof. by destruct ev, ev'. Qed.

Lemma findRoute_found `{RouteImpl} (s : Server) (req : Request) (res : Response) (r : Route) :
  fr_route (_findRoute s req res) = Some r ->
  fr_server (_findRoute s req res) = s /\ fr_trace (_findRoute s req res) = [] /\
  res_calls (fr_res (_findRoute s req res)) = res_calls res /\
  sc_route (scan (routes s) req None [] []) = Some r.
Proof.
  unfold _findRoute. destruct (sc_route (scan (routes s) req None [] [])) as [r'|] eqn:Hr.
  - simpl. by intros [= ->].
  - repeat case_match; simpl; done.
Qed.

Lemma findRoute_route_scan `{RouteImpl} (s : Server) (req : Request) (res : Response) :
  fr_route (_findRoute s req res) = sc_route (scan (routes s) req None [] []).
Proof.
  unfold _findRoute. destruct (sc_route (scan (routes s) req None [] [])) eqn:Hr; [done|].
  repeat case_match; done.
Qed.

(** X6: a resolution that finds no route unregisters the [once]
    listeners of the event it emits, and those only: the persistent
    listeners of that event and all listeners of the other events stay. *)
Theorem fallback_consumes_once_listeners `{RouteImpl} (s : Server) (req : Request)
    (res : Response) (ev : Event) :
  Forall (λ r, fully_matches r req = false) (routes s) ->
  listeners (fr_server (_findRoute s req res)) ev =
    if decide (ev = event_of (fallback_outcome
                                (sc_versions (scan (routes s) req None [] []))
                                (sc_methods (scan (routes s) req None [] []))))
    then filter (λ r, reg_once r = false) (listeners s ev)
    else listeners s ev.
Proof.
  intros Hno. rewrite findRoute_no_route by (by apply scan_no_match). cbv zeta. simpl.
  case_decide as Hev.
  - subst ev. apply listeners_set_listeners.
  - by apply listeners_set_listeners_ne.
Qed.

Lemma findRoute_listeners_sub `{RouteImpl} (s : Server) (req : Request) (res : Response)
    (ev : Event) :
  listeners (fr_server (_findRoute s req res)) ev ⊆ listeners s ev.
Proof.
  pose proof (findRoute_route_scan s req res) as Hscan.
  destruct (sc_route (scan (routes s) req None [] [])) as [r|] eqn:Hr.
  - by destruct (findRoute_found s req res r Hscan) as (-> & _).
  - rewrite findRoute_no_route by done. cbv zeta. simpl.
    set (e := fallback_outcome _ _).
    destruct (decide (event_of e = ev)) as [<-|Hne].
    + rewrite listeners_set_listeners. intros x Hx. by apply list_elem_of_filter in Hx as [_ Hx].
    + by rewrite listeners_set_listeners_ne.
Qed.

Lemma fold_user_listeners (ls : list Registration) (e : Emission) (req : Request) :
  Forall (λ r, reg_listener r <> DefaultResponder) ls ->
  forall res, fold_left (λ res r, call_listener (reg_listener r) e req res) ls res = res.
Proof.
  induction 1 as [|l ls Hl _ IH]; intros res; [done|]. simpl.
  destruct (reg_listener l); [done | apply IH].
Qed.

(** X7: when the user listens to the event of a fallback outcome, the
    dispatcher leaves the answer to the listeners: it makes no call on the
    response, and the default responder is not among those it invokes. *)
Theorem user_listener_replaces_default `{RouteImpl} (s : Server) (req : Request)
    (res : Response) :
  Forall (λ r, fully_matches r req = false) (routes s) ->
  no_default_installed s ->
  listeners s (event_of (fallback_outcome
                           (sc_versions (scan (routes s) req None [] []))
                           (sc_methods (scan (routes s) req None [] [])))) <> [] ->
  res_calls (fr_res (_findRoute s req res)) = res_calls res /\
  Forall (λ a, forall e, a <> Invoked DefaultResponder e)
         (fr_trace (_findRoute s req res)).
Proof.
  intros Hno Hnd Hls. rewrite findRoute_no_route by (by apply scan_no_match).
  cbv zeta. simpl. set (e := fallback_outcome _ _) in *.
  specialize (Hnd (event_of e)). unfold reached, responders.
  destruct (listeners s (event_of e)) as [|l ls] eqn:Hl; [done|].
  rewrite fold_user_listeners by done. split; [done|].
  constructor; [done|]. change (map ?f ?l) with (f <$> l). rewrite !Forall_fmap.
  eapply Forall_impl; [exact Hnd|].
  intros r Hr e' [= Heq _]. done.
Qed.

Lemma series_ensure `{Handlers} (ts : list Task) (req : Request) (res : Response) :
  series (ts ++ [EnsureTask]) req res = series ts req res.
Proof.
  rewrite series_app. by destruct (series ts req res) as [[[] ?] ?].
Qed.

(** X8: a dispatch runs the route [r] exactly when every handler of
    the pre-chain proceeds and the resolution, on the request and response
    as the pre-chain left them, finds [r]. *)
Theorem request_runs_route_iff `{RouteImpl} `{Handlers} (s : Server) (req : Request)
    (res : Response) (r : Route) :
  RouteRun r ∈ d_trace (_request s req res) <->
  exists req' res',
    series (map HandlerTask (preChain s)) req res = (SeriesOk, req', res') /\
    fr_route (_findRoute s req' res') = Some r.
Proof.
  unfold _request. rewrite series_ensure.
  destruct (series (map HandlerTask (preChain s)) req res) as [[st req1] res1].
  destruct st as [|err| |e]; simpl.
  - destruct (fr_route (_findRoute s req1 res1)) as [r0|] eqn:Hr; simpl.
    + destruct (findRoute_found s req1 res1 r0 Hr) as (_ & -> & _). simpl.
      rewrite list_elem_of_singleton. split.
      * intros [= ->]. by exists req1, res1.
      * intros (? & ? & [= <- <-] & Hr'). congruence.
    + split.
      * rewrite findRoute_route_scan in Hr.
        rewrite findRoute_no_route by done. cbv zeta. simpl.
        intros Hin. apply elem_of_cons in Hin as [Hin|Hin]; [done|].
        apply list_elem_of_fmap in Hin as (? & ? & _). done.
      * intros (? & ? & [= <- <-] & Hr'). congruence.
  - split; [intros Hin; by apply not_elem_of_nil in Hin | by intros (? & ? & ? & _)].
  - split; [intros Hin; by apply not_elem_of_nil in Hin | by intros (? & ? & ? & _)].
  - split; [intros Hin; by apply not_elem_of_nil in Hin | by intros (? & ? & ? & _)].
Qed.

(** X9: [pre] accepts a value that is neither a function nor an array;
    from then on every request whose earlier pre-chain handlers proceed
    ends in a TypeError at that value: nothing is sent, no route is
    resolved. *)
Theorem pre_accepts_non_function `{RouteImpl} `{Handlers} (v : value) (s : Server)
    (req req1 : Request) (res res1 : Response) :
  isArray v = false -> typeof v <> "function" ->
  series (map HandlerTask (preChain s)) req res = (SeriesOk, req1, res1) ->
  exists s',
    pre [v] s = inr s' /\
    _request s' req res =
      mkDispatch (Raised (TypeError "h is not a function")) s' req1 res1 [].
Proof.
  intros Harr Hfun Hok. unfold pre. rewrite argsToChain_flatten.
  eexists. split; [reflexivity|].
  assert (flatten_all [v] = [v]) as -> by (by destruct v).
  unfold _request. simpl. rewrite map_app, <- app_assoc, series_app, Hok.
  by destruct v.
Qed.

Lemma default_responder_sends (e : Emission) (req : Request) (res : Response) :
  exists extra,
    res_calls (default_responder e req res) = res_calls res ++ extra /\ sends extra = 1%nat.
Proof.
  destruct e as [vs|ms|]; simpl.
  - eexists [_]. split; reflexivity.
  - rewrite default405Handler_calls. eexists [_; _]. split; reflexivity.
  - eexists [_]. split; reflexivity.
Qed.

(** X10: on a server where no default responder is left installed, the
    dispatcher itself sends at most once per request: the calls it adds
    to the response, after those of the pre-chain, hold one [send] at
    most. *)
Theorem request_sends_at_most_once `{RouteImpl} `{Handlers} (s : Server) (req : Request)
    (res : Response) :
  no_default_installed s ->
  exists extra,
    res_calls (d_res (_request s req res)) =
      res_calls (series (map HandlerTask (preChain s)) req res).2 ++ extra /\
    (sends extra <= 1)%nat.
Proof.
  intros Hnd. unfold _request. rewrite series_ensure.
  destruct (series (map HandlerTask (preChain s)) req res) as [[st req1] res1].
  destruct st as [|err| |e]; simpl.
  - destruct (fr_route (_findRoute s req1 res1)) as [r0|] eqn:Hr; simpl.
    + destruct (findRoute_found s req1 res1 r0 Hr) as (_ & _ & Hcalls & _).
      exists [CallDefaultHeaders]. rewrite Hcalls. split; [done | cbv; lia].
    + rewrite findRoute_route_scan in Hr.
      rewrite findRoute_no_route by done. cbv zeta. simpl.
      set (e := fallback_outcome _ _). set (res2 := with_accumulators _ _ res1).
      unfold reached. specialize (Hnd (event_of e)).
      destruct (listeners s (event_of e)) as [|l ls] eqn:Hl.
      * simpl. destruct (default_responder_sends e req1 res2) as (extra & -> & Hs).
        exists extra. split; [done | lia].
      * rewrite fold_user_listeners by done. exists []. rewrite app_nil_r.
        split; [done | cbv; lia].
  - exists [CallSend (SendValue err)]. split; [done | cbv; lia].
  - exists []. rewrite app_nil_r. split; [done | cbv; lia].
  - exists []. rewrite app_nil_r. split; [done | cbv; lia].
Qed.

(** X11: no default responder is left installed by a dispatch. *)
Theorem request_keeps_no_default `{RouteImpl} `{Handlers} (s : Server) (req : Request)
    (res : Response) :
  no_default_installed s -> no_default_installed (d_server (_request s req res)).
Proof.
  intros Hnd ev. unfold _request.
  destruct (series _ req res) as [[st req1] res1].
  destruct st as [|err| |e]; simpl; try apply Hnd.
  assert (Forall (λ r, reg_listener r <> DefaultResponder)
            (listeners (fr_server (_findRoute s req1 res1)) ev)) as Hsub.
  { apply Forall_forall. intros r Hr. apply findRoute_listeners_sub in Hr.
    revert r Hr. apply Forall_forall, Hnd. }
  by destruct (fr_route (_findRoute s req1 res1)).
Qed.

(** ** Further properties of registration and removal *)

Lemma addRoute_routes `{RouteImpl} (method : string) (options : RouteOptions)
    (handlers : list value) (s : Server) (r : Route) (s1 : Server) :
  _addRoute method options handlers s = inr (r, s1) ->
  routes s1 = map (back_patch method options) (routes s) ++ [r] /\
  next_id s1 = S (next_id s) /\ rt_id r = next_id s /\ rt_method r = method.
Proof.
  unfold _addRoute. rewrite argsToChain_flatten. by intros [= <- <-].
Qed.

Lemma back_patch_same `{RouteImpl} (method : string) (options : RouteOptions) (r : Route) :
  same_but_methods r (back_patch method options r).
Proof.
  unfold back_patch, same_but_methods. by destruct (matchesUrl _ _).
Qed.

(** X12: registering a route for [method] leaves the routes already
    registered in place and in order, changing their [methods] arrays only:
    a route whose path predicate accepts [{ url: options.url }] lists
    [method] afterwards, without duplicate if it had none, and any other
    route is untouched. The new route comes last. *)
Theorem addRoute_back_patches `{RouteImpl} (method : string) (options : RouteOptions)
    (handlers : list value) (s : Server) (r : Route) (s1 : Server) :
  _addRoute method options handlers s = inr (r, s1) ->
  exists patched,
    routes s1 = patched ++ [r] /\
    Forall2 (λ old new,
               same_but_methods old new /\
               (is_Some (matchesUrl old (OfUrl (o_url options))) ->
                method ∈ rt_methods new /\
                (NoDup (rt_methods old) -> NoDup (rt_methods new))) /\
               (matchesUrl old (OfUrl (o_url options)) = None -> new = old))
      (routes s) patched.
Proof.
  intros Hadd. apply addRoute_routes in Hadd as (-> & _).
  eexists. split; [reflexivity|].
  change (map ?f ?l) with (f <$> l). apply Forall2_fmap_r, Forall_Forall2_diag, Forall_forall.
  intros old _. split; [apply back_patch_same|]. unfold back_patch.
  destruct (matchesUrl old (OfUrl (o_url options))) as [p|]; split; try done.
  intros _. simpl. split; [apply push_unique_elem; by right | apply push_unique_NoDup].
Qed.

Lemma rm_loop_fresh (x : Route) (rs : list Route) :
  Forall (λ r, rt_id r <> rt_id x) rs ->
  rm_loop (RmRoute x) (rs ++ [x]) = Some rs.
Proof.
  induction 1 as [|r rs Hr _ IH]; simpl.
  - by rewrite Nat.eqb_refl.
  - apply Nat.eqb_neq in Hr. by rewrite Hr, IH.
Qed.

(** X13: on a server whose route objects are all older than the next
    one, a route that has just been registered is removed again by [rm]
    with the route object; the other routes stay, and they keep the method
    the registration pushed onto them. *)
Theorem register_then_rm `{RouteImpl} (method : string) (options : RouteOptions)
    (handlers : list value) (s : Server) (r : Route) (s1 : Server) :
  ids_fresh s ->
  _addRoute method options handlers s = inr (r, s1) ->
  exists s2,
    rm (RmRoute r) s1 = inr (true, s2) /\
    routes s2 = map (back_patch method options) (routes s) /\
    ids_fresh s2.
Proof.
  intros Hfresh Hadd. apply addRoute_routes in Hadd as (Hrs & Hnext & Hid & _).
  assert (Forall (λ r', rt_id r' <> rt_id r) (map (back_patch method options) (routes s)))
    as Hne.
  { change (map ?f ?l) with (f <$> l). apply Forall_fmap.
    eapply Forall_impl; [exact Hfresh|]. intros r' Hlt. unfold compose.
    destruct (back_patch_same method options r') as (Heq & _). rewrite Heq, Hid. simpl in Hlt. lia. }
  exists (set_routes (map (back_patch method options) (routes s)) s1).
  unfold rm. rewrite Hrs, (rm_loop_fresh r _ Hne). split_and!; try done.
  unfold ids_fresh. simpl. change (map ?f ?l) with (f <$> l). apply Forall_fmap.
  eapply Forall_impl; [exact Hfresh|]. intros r' Hlt. unfold compose.
  destruct (back_patch_same method options r') as (Heq & _). rewrite Heq, Hnext. simpl in Hlt. lia.
Qed.

(** X14: [rm] with a name or a route returns true exactly when an
    entry of the table matches; the table then loses one entry, the rest
    staying in order. When it returns false the server is as it was. *)
Theorem rm_removes_one (name : RmArg) (s : Server) :
  name <> RmOther ->
  exists b s',
    rm name s = inr (b, s') /\
    (b = true <-> Exists (λ r, rm_matches name r = true) (routes s)) /\
    (b = false -> s' = s) /\
    (b = true -> S (length (routes s')) = length (routes s) /\
                 routes s' `sublist_of` routes s).
Proof.
  intros Hname. pose proof (rm_loop_inv name (routes s)) as Hinv.
  assert (rm name s = match rm_loop name (routes s) with
                      | Some rs => inr (true, set_routes rs s)
                      | None => inr (false, s)
                      end) as -> by (by destruct name).
  destruct (rm_loop name (routes s)) as [rs|].
  - destruct Hinv as (before & r & after & Hrs & _ & Hr & ->).
    exists true, (set_routes (before ++ after) s). split_and!; try done.
    + split; [|done]. intros _. rewrite Hrs. apply Exists_app. right. by left.
    + intros _. simpl. rewrite Hrs, !length_app. simpl. split; [lia|].
      apply sublist_app; [done|]. by apply sublist_cons.
  - exists false, s. split_and!; try done. split; [done|].
    intros Hex. apply Exists_exists in Hex as (r & Hin & Hr).
    rewrite Forall_forall in Hinv. specialize (Hinv r Hin). congruence.
Qed.

(** X15: [pre] never throws and never touches the routes or the
    global chain; two [pre] calls in a row are one call with the arguments
    of both. *)
Theorem pre_composes (a1 a2 : list value) (s : Server) :
  exists s1 s2,
    pre a1 s = inr s1 /\ pre a2 s1 = inr s2 /\ pre (a1 ++ a2) s = inr s2 /\
    preChain s2 = preChain s ++ flatten_all a1 ++ flatten_all a2 /\
    routes s2 = routes s /\ chain s2 = chain s.
Proof.
  unfold pre. rewrite !argsToChain_flatten. eexists _, _.
  split; [reflexivity|]. split; [reflexivity|].
  unfold flatten_all. rewrite flat_map_app. simpl.
  split_and!; try done; unfold set_preChain; simpl; by rewrite <- app_assoc.
Qed.

Lemma use_all_chain `{RouteImpl} (calls : list (list value)) :
  forall s, exists s',
    use_all calls s = inr s' /\
    chain s' = chain s ++ flat_map flatten_all calls /\
    preChain s' = preChain s /\ length (routes s') = length (routes s).
Proof.
  induction calls as [|args calls IH]; intros s; simpl.
  - exists s. by rewrite app_nil_r.
  - destruct (use args s) as [e|s1] eqn:Huse.
    { unfold use in Huse. rewrite argsToChain_flatten in Huse. by case_match. }
    destruct (IH s1) as (s' & -> & Hc & Hp & Hl). exists s'. split; [done|].
    pose proof (use_spec args s s1 Huse) as Hspec.
    destruct (flatten_all args) as [|h c].
    + subst s1. done.
    + destruct Hspec as [Hc1 Hr1]. rewrite Hc, Hc1, Hp, Hl, Hr1, length_map, <- app_assoc.
      split_and!; try done. unfold use in Huse. rewrite argsToChain_flatten in Huse.
      case_match; by simplify_eq.
Qed.

(** X17: [use] never throws, and the global chain is the concatenation
    of the flattened arguments of all [use] calls so far, in call order: a
    route registered after them is constructed with all of them, followed
    by its own handlers. *)
Theorem route_after_uses `{RouteImpl} (calls : list (list value)) (v : Verb)
    (options : RouteSpec) (handlers : list value) (s s1 s2 : Server) (r : Route) :
  use_all calls s = inr s1 ->
  route_verb v options handlers s1 = inr (r, s2) ->
  rt_handlers r = chain s ++ flat_map flatten_all calls ++ flatten_all handlers.
Proof.
  intros Huse Hreg. destruct (use_all_chain calls s) as (s' & Hs' & Hc & _).
  rewrite Huse in Hs'. injection Hs' as <-.
  apply route_verb_spec in Hreg as (-> & _). by rewrite Hc, <- app_assoc.
Qed.

Lemma findRoute_in_table `{RouteImpl} (s : Server) (req : Request) (res : Response)
    (r : Route) :
  fr_route (_findRoute s req res) = Some r -> r ∈ routes s.
Proof.
  rewrite findRoute_route_scan. intros Hr.
  pose proof (scan_route_inv (routes s) req None [] []) as Hinv. rewrite Hr in Hinv.
  destruct Hinv as (before & after & p & -> & _). apply elem_of_app. right. by left.
Qed.

(** X18: once the only route of name [n] is removed, no request
    resolves to a route of that name. *)
Theorem removed_route_not_resolved `{RouteImpl} (n : string) (s s' : Server)
    (req : Request) (res : Response) (r : Route) :
  length (filter (λ r, rt_name r = n) (routes s)) = 1%nat ->
  rm (RmName n) s = inr (true, s') ->
  fr_route (_findRoute s' req res) = Some r ->
  rt_name r <> n.
Proof.
  intros Hone Hrm Hfound. apply findRoute_in_table in Hfound.
  unfold rm in Hrm. pose proof (rm_loop_inv (RmName n) (routes s)) as Hinv.
  destruct (rm_loop (RmName n) (routes s)) as [rs|]; [|done].
  injection Hrm as <-. simpl in Hfound.
  destruct Hinv as (before & r0 & after & Hrs & Hb & Hr0 & ->).
  simpl in Hr0. apply String.eqb_eq in Hr0.
  rewrite Hrs, filter_app, filter_cons_True, (filter_name_matches n before Hb) in Hone
    by done.
  simpl in Hone. injection Hone as Hafter. apply nil_length_inv in Hafter.
  apply filter_name_nil in Hafter.
  assert (Forall (λ x, rm_matches (RmName n) x = false) (before ++ after)) as Hall
    by (by apply Forall_app).
  rewrite Forall_forall in Hall. specialize (Hall r Hfound). simpl in Hall.
  by apply String.eqb_neq in Hall.
Qed.

(** ** Properties of the module entry point *)

Lemma api_call_shared (c : ApiCall) (m : ModuleState) (p : Provider) :
  DTRACE m = Some p -> wants_shared c -> api_call c m = (Some p, m).
Proof.
  intros Hm [Hown Hok].
  destruct c as [o|o|o|o]; simpl in *.
  - unfold createServer, getDTraceProvider. rewrite Hown, Hm. done.
  - destruct Hok as [o' ->]. simpl in *. unfold getDTraceProvider. by rewrite Hown, Hm.
  - destruct Hok as [o' ->]. simpl in *. unfold getDTraceProvider. by rewrite Hown, Hm.
  - destruct Hok as [o' ->]. simpl in *. unfold getDTraceProvider. by rewrite Hown, Hm.
Qed.

Lemma getDTraceProvider_keeps (d : option Provider) (n : option string)
    (m : ModuleState) (p : Provider) :
  DTRACE m = Some p -> exists q, getDTraceProvider d n m = (q, m).
Proof.
  intros Hm. unfold getDTraceProvider. destruct d; [by eexists|]. rewrite Hm. by eexists.
Qed.

Lemma api_call_keeps (c : ApiCall) (m : ModuleState) (p : Provider) :
  DTRACE m = Some p -> (api_call c m).2 = m.
Proof.
  intros Hm. destruct c as [o|[o|]|[o|]|[o|]]; simpl; try done.
  - unfold createServer.
    by destruct (getDTraceProvider_keeps (so_dtrace (default no_options o))
                   (match or_str (so_name (default no_options o)) None with
                    | Some n => Some n
                    | None => Some "restify"
                    end) m p Hm) as [q ->].
  - by destruct (getDTraceProvider_keeps (co_dtrace o) (co_name o) m p Hm) as [q ->].
  - by destruct (getDTraceProvider_keeps (co_dtrace o) (co_name o) m p Hm) as [q ->].
  - by destruct (getDTraceProvider_keeps (co_dtrace o) (co_name o) m p Hm) as [q ->].
Qed.

Lemma run_api_shared (calls : list ApiCall) (p : Provider) :
  forall m, DTRACE m = Some p ->
    (run_api calls m).2 = m /\
    forall i c, calls !! i = Some c -> wants_shared c ->
                (run_api calls m).1 !! i = Some (Some p).
Proof.
  induction calls as [|c calls IH]; intros m Hm; [done|]. simpl.
  pose proof (api_call_keeps c m p Hm) as Hkeep.
  destruct (api_call c m) as [q m1] eqn:Hc. simpl in Hkeep. subst m1.
  destruct (IH m Hm) as [Hm2 Hps]. destruct (run_api calls m) as [ps m2]. simpl in *.
  split; [done|]. intros [|i] c' Hi Hw; simpl in *.
  - injection Hi as <-. rewrite (api_call_shared c m p Hm Hw) in Hc. congruence.
  - by apply (Hps i c').
Qed.

Lemma api_call_made (c : ApiCall) (m : ModuleState) :
  DTRACE m = None ->
  (DTRACE (api_call c m).2 = None /\ (api_call c m).2 = m /\ ~ wants_shared c) \/
  (exists p, DTRACE (api_call c m).2 = Some p /\ (api_call c m).1 = Some p /\
             providers_made (api_call c m).2 = S (providers_made m) /\ wants_shared c).
Proof.
  intros Hm. unfold wants_shared.
  destruct c as [o|[o|]|[o|]|[o|]]; simpl;
    try (left; split_and!; [done | done | by intros [_ [? ?]]]).
  - unfold createServer, getDTraceProvider. destruct (so_dtrace _) as [q|] eqn:Hq.
    + left. split_and!; try done. by intros [? _].
    + rewrite Hm. right. eexists. split_and!; done.
  - unfold getDTraceProvider. destruct (co_dtrace o) as [q|] eqn:Hq.
    + left. split_and!; try done. by intros [? _].
    + rewrite Hm. right. eexists. split_and!; try done; by eexists.
  - unfold getDTraceProvider. simpl. destruct (co_dtrace o) as [q|] eqn:Hq.
    + left. split_and!; try done. by intros [? _].
    + rewrite Hm. right. eexists. split_and!; try done; by eexists.
  - unfold getDTraceProvider. simpl. destruct (co_dtrace o) as [q|] eqn:Hq.
    + left. split_and!; try done. by intros [? _].
    + rewrite Hm. right. eexists. split_and!; try done; by eexists.
Qed.

(** X19: over any sequence of [createServer] and [create...Client]
    calls on a fresh module, at most one DTrace provider is made, and all
    the servers and clients created without a provider of their own get
    that same one. *)
Theorem dtrace_provider_shared (calls : list ApiCall) :
  (providers_made (run_api calls fresh_module).2 <= 1)%nat /\
  exists p, forall i c,
    calls !! i = Some c -> wants_shared c ->
    (run_api calls fresh_module).1 !! i = Some (Some p).
Proof.
  assert (forall m, DTRACE m = None ->
            (providers_made (run_api calls m).2 <= S (providers_made m))%nat /\
            exists p, forall i c,
              calls !! i = Some c -> wants_shared c ->
              (run_api calls m).1 !! i = Some (Some p)) as Hgen.
  { induction calls as [|c calls IH]; intros m Hm.
    - simpl. split; [lia|]. exists (mkProvider 0 ""). intros i c Hi. done.
    - simpl. destruct (api_call_made c m Hm) as [(Hn & Hsame & Hnw)|(p & Hp & Hgot & Hmade & Hw)].
      + destruct (api_call c m) as [q m1]. simpl in *. subst m1.
        destruct (IH m Hm) as [Hle [p Hps]]. destruct (run_api calls m) as [ps m2].
        simpl in *. split; [done|]. exists p. intros [|i] c' Hi Hw'; simpl in *.
        * by injection Hi as <-.
        * by apply (Hps i c').
      + destruct (api_call c m) as [q m1]. simpl in *. subst q.
        destruct (run_api_shared calls p m1 Hp) as [Hm2 Hps].
        destruct (run_api calls m1) as [ps m2]. simpl in *. subst m2.
        split; [lia|]. exists p. intros [|i] c' Hi Hw'; simpl in *; [done|].
        by apply (Hps i c'). }
  apply (Hgen fresh_module). done.
Qed.

Example two_servers_share_provider :
  run_api [CallCreateServer None;
           CallCreateClient (Some (mkClientOptions None (Some "client") None None));
           CallCreateServer (Some (mkServerOptions None (Some "api") None [] None false))]
          fresh_module
  = ([Some (mkProvider 0 "restify"); Some (mkProvider 0 "restify");
      Some (mkProvider 0 "restify")],
     mkModule (Some (mkProvider 0 "restify")) 1).
Proof. reflexivity. Qed.

(** ** Further properties across operations *)

(** X20: a request whose path no route accepts, on a server where
    nobody listens to NotFound, is answered by one call on the response:
    [send] with a ResourceNotFoundError naming the url. *)
Theorem unmatched_path_gets_404 `{RouteImpl} (s : Server) (req : Request) (res : Response) :
  Forall (λ r, matchesUrl r (OfRequest req) = None) (routes s) ->
  listeners s NotFound = [] ->
  fr_route (_findRoute s req res) = None /\
  res_calls (fr_res (_findRoute s req res)) =
    res_calls res ++ [CallSend (SendError (ResourceNotFoundError (req_url req +:+ " not found")))].
Proof.
  intros Hpath Hls.
  assert (Hno : Forall (λ r, fully_matches r req = false) (routes s)).
  { eapply Forall_impl; [exact Hpath|]. intros r Hr. unfold fully_matches. by rewrite Hr. }
  assert (Hblame : Forall (λ r, matchesUrl r (OfRequest req) = None \/
                                matchesMethod r req = false) (routes s)).
  { eapply Forall_impl; [exact Hpath|]. intros r Hr. by left. }
  pose proof (scan_versions_untouched (routes s) req Hblame None [] []) as Hv.
  pose proof (scan_methods_elem (routes s) req Hno None [] []) as Hm.
  rewrite findRoute_no_route by (by apply scan_no_match). cbv zeta. simpl.
  rewrite Hv. destruct (sc_methods (scan (routes s) req None [] [])) as [|m ms] eqn:Hms.
  - simpl. unfold reached. rewrite Hls. done.
  - exfalso. destruct (proj1 (Hm m)) as [Hin|(r & Hr & [[p Hp] _] & _)]; [by left | |].
    + by apply not_elem_of_nil in Hin.
    + rewrite Forall_forall in Hpath. specialize (Hpath r Hr). congruence.
Qed.

(** X21: on a version-mismatch outcome with no VersionNotAllowed
    listener of the user, the response receives one call: [send] with an
    InvalidVersionError whose message names method, url and the
    accumulated versions, joined by a comma and a space. *)
Theorem version_mismatch_default_response `{RouteImpl} (s : Server) (req : Request)
    (res : Response) (versions : list string) :
  Forall (λ r, fully_matches r req = false) (routes s) ->
  fallback_outcome (sc_versions (scan (routes s) req None [] []))
                   (sc_methods (scan (routes s) req None [] []))
    = EmitVersionNotAllowed versions ->
  listeners s VersionNotAllowed = [] ->
  res_calls (fr_res (_findRoute s req res)) =
    res_calls res ++
      [CallSend (SendError (InvalidVersionError
         (req_method req +:+ " " +:+ req_url req +:+ " supports versions: " +:+
          join ", " versions)))].
Proof.
  intros Hno He Hls.
  rewrite findRoute_no_route by (by apply scan_no_match). cbv zeta. simpl.
  rewrite He. simpl. unfold reached. rewrite Hls. done.
Qed.

(** X23: when a request resolves to a route, [res.methods] is that
    route's [methods] array; for a route registered before the latest one
    it lists the latest route's method whenever the route's path predicate
    accepted the latest registration's url. *)
Theorem resolved_methods_include_later `{RouteImpl} (method : string)
    (options : RouteOptions) (handlers : list value) (s s1 : Server) (r r' : Route)
    (req : Request) (res : Response) :
  _addRoute method options handlers s = inr (r, s1) ->
  fr_route (_findRoute s1 req res) = Some r' ->
  res_methods (fr_res (_findRoute s1 req res)) = Some (rt_methods r') /\
  (r' = r \/
   exists old, old ∈ routes s /\ r' = back_patch method options old /\
               (is_Some (matchesUrl old (OfUrl (o_url options))) ->
                method ∈ rt_methods r')).
Proof.
  intros Hadd Hfound. split.
  - rewrite findRoute_route_scan in Hfound. unfold _findRoute. by rewrite Hfound.
  - apply findRoute_in_table in Hfound. apply addRoute_routes in Hadd as (Hrs & _).
    rewrite Hrs in Hfound. apply elem_of_app in Hfound as [Hold|Hnew].
    + right. change (map ?f ?l) with (f <$> l) in Hold.
      apply list_elem_of_fmap in Hold as (old & -> & Hold).
      exists old. split_and!; try done. unfold back_patch.
      intros [p ->]. simpl. apply push_unique_elem. by right.
    + left. by apply list_elem_of_singleton in Hnew.
Qed.

Lemma fold_push_unique_elem (acc : list string) :
  forall seen a, a ∈ fold_left push_unique acc seen <-> a ∈ seen \/ a ∈ acc.
Proof.
  induction acc as [|x acc IH]; intros seen a; simpl.
  - split; [by left | intros [?|Hin]; [done | by apply not_elem_of_nil in Hin]].
  - rewrite IH, push_unique_elem, elem_of_cons. tauto.
Qed.

(** X24: a type is acceptable exactly when it is a key of the
    formatters or an entry of [Response.ACCEPTABLE]; this needs no
    assumption on the formatters object. *)
Theorem acceptable_is_union `{ResponseStatics} (s : Server) (a : string) :
  a ∈ acceptable s <-> a ∈ map fst (formatters s) \/ a ∈ ACCEPTABLE.
Proof. apply fold_push_unique_elem. Qed.

(** ** Properties of the response stub *)

Lemma stub_run_data (ops : list StubOp) :
  forall st, stub_data (stub_run ops st) = stub_data st ++ flat_map chunks_of ops.
Proof.
  induction ops as [|op ops IH]; intros st; simpl.
  - by rewrite app_nil_r.
  - unfold stub_run in *. rewrite IH. destruct op; simpl; by rewrite <- ?app_assoc, ?app_nil_r.
Qed.

Lemma stub_run_app (ops1 ops2 : list StubOp) (st : Stub) :
  stub_run (ops1 ++ ops2) st = stub_run ops2 (stub_run ops1 st).
Proof. apply fold_left_app. Qed.

(** X25: whatever calls came before, the 'end' event the stub emits
    on [end(data)] carries every chunk written so far, in order, with
    [data] last unless it is left out or empty; an empty chunk passed to
    [write] is kept. *)
Theorem stub_end_carries_all_chunks (ops : list StubOp) (data : option string) :
  last (stub_ended (stub_run (ops ++ [OpEnd data]) new_stub))
  = Some (stub_statusCode (stub_run ops new_stub),
          stub_headers (stub_run ops new_stub),
          flat_map chunks_of ops ++ data_given data).
Proof.
  rewrite stub_run_app. simpl. rewrite last_snoc, stub_run_data. done.
Qed.

Lemma assign_header_other (k k' v : string) (h : gmap string string) :
  k' <> k -> assign_header k' v h !! k = h !! k.
Proof.
  intros Hne. unfold assign_header. case_match; [done|]. by apply lookup_insert_ne.
Qed.

Lemma stub_run_header_frame (k : string) (ops : list StubOp) :
  Forall (λ op, ~ touches_header k op) ops ->
  forall st, stub_headers (stub_run ops st) !! k = stub_headers st !! k.
Proof.
  induction 1 as [|op ops Hop _ IH]; intros st; [done|]. simpl.
  unfold stub_run in *. rewrite IH.
  destruct op as [k' v|k'|status [h|]|d|d| |]; simpl in *; try done.
  - by apply assign_header_other.
  - by rewrite lookup_delete_ne.
Qed.

(** X26: a header other than [__proto__] set on the stub is read back
    with the value it was given after any calls that neither set nor
    remove that header nor replace the header object through
    [writeHead]. *)
Theorem stub_header_round_trip (k v : string) (before after : list StubOp) :
  k <> "__proto__" ->
  Forall (λ op, ~ touches_header k op) after ->
  getHeader k (stub_run (before ++ OpSetHeader k v :: after) new_stub) = OwnValue v.
Proof.
  intros Hk Hafter. unfold getHeader. rewrite stub_run_app. simpl.
  change (fold_left stub_step after ?st) with (stub_run after st).
  rewrite (stub_run_header_frame k after Hafter). simpl.
  unfold assign_header. apply String.eqb_neq in Hk. rewrite Hk. simpl.
  by rewrite lookup_insert_eq.
Qed.

Lemma stub_header_round_trip_witness :
  getHeader "x-a" (stub_run ([OpWriteHead (Some 404) (Some ∅)] ++
                             OpSetHeader "x-a" "1" ::
                             [OpSetHeader "x-b" "2"; OpWriteHead (Some 0) None;
                              OpWrite ""; OpEnd None]) new_stub) = OwnValue "1".
Proof.
  apply (stub_header_round_trip "x-a" "1" [OpWriteHead (Some 404) (Some ∅)]
           [OpSetHeader "x-b" "2"; OpWriteHead (Some 0) None; OpWrite ""; OpEnd None]).
  - discriminate.
  - repeat constructor; simpl; try tauto; discriminate.
Defined.

Example stub_proto_header_not_stored :
  getHeader "__proto__" (stub_run [OpSetHeader "__proto__" "v"] new_stub) = NotOwn.
Proof. reflexivity. Qed.

Example stub_end_example :
  stub_ended (stub_run [OpWriteHead (Some 0) None; OpWrite "a"; OpWrite ""; OpEnd (Some "")]
                new_stub)
  = [(200, ∅, ["a"; ""])].
Proof. reflexivity. Qed.

(** ** The further theorems at concrete servers *)

Lemma no_default_with_routes (rs : list Route) : no_default_installed (with_routes rs).
Proof. intros ev. destruct ev; constructor. Qed.

(** GET /x for version 2.0, POST /x, and a GET /x request for 3.0. *)
Lemma failed_resolution_accumulators_witness :
  let s := with_routes [example_route 0 "GET" "/x" (Some "2.0");
                        example_route 1 "POST" "/x" None] in
  let req := mkRequest "GET" "/x" "/x" ["3.0"] None in
  exists methods versions,
    res_methods (fr_res (@_findRoute example_routes s req fresh_response)) = Some methods /\
    res_versions (fr_res (@_findRoute example_routes s req fresh_response)) = Some versions /\
    NoDup methods /\ NoDup versions /\
    (forall m, m ∈ methods <->
               exists r, r ∈ routes s /\ @blames_method example_routes req r /\
                         rt_method r = m) /\
    (forall v, v ∈ versions <->
               exists r, r ∈ routes s /\ @blames_version example_routes req r v).
Proof.
  intros s req. apply (@failed_resolution_accumulators example_routes s req fresh_response).
  constructor; [reflexivity|]. constructor; [reflexivity | constructor].
Defined.

Lemma not_found_iff_nothing_blamed_witness :
  let s := with_routes [example_route 0 "GET" "/a" None] in
  let req := example_request "GET" "/x" in
  hd_error (fr_trace (@_findRoute example_routes s req fresh_response))
    = Some (Emitted EmitNotFound) <->
  (forall r, r ∈ routes s ->
             ~ @blames_method example_routes req r /\
             forall v, ~ @blames_version example_routes req r v).
Proof.
  intros s req. apply (@not_found_iff_nothing_blamed example_routes s req fresh_response).
  constructor; [reflexivity | constructor].
Defined.

(** A [once] listener and a persistent one on NotFound. *)
Lemma fallback_consumes_once_listeners_witness :
  let s := on NotFound (UserListener 2) (once NotFound (UserListener 1) (with_routes [])) in
  listeners (fr_server (@_findRoute example_routes s (example_request "GET" "/x")
                          fresh_response)) NotFound
  = [mkReg (UserListener 2) false].
Proof.
  intros s.
  rewrite (@fallback_consumes_once_listeners example_routes s (example_request "GET" "/x")
             fresh_response NotFound); [reflexivity | constructor].
Defined.

Lemma user_listener_replaces_default_witness :
  let s := on NotFound (UserListener 9) (with_routes []) in
  let f := @_findRoute example_routes s (example_request "GET" "/x") fresh_response in
  res_calls (fr_res f) = res_calls fresh_response /\
  Forall (λ a, forall e, a <> Invoked DefaultResponder e) (fr_trace f).
Proof.
  intros s f.
  apply (@user_listener_replaces_default example_routes s (example_request "GET" "/x")
           fresh_response).
  - constructor.
  - intros ev. destruct ev; simpl; repeat constructor; discriminate.
  - discriminate.
Defined.

(** [pre(42)] on a server whose pre-chain holds one handler that
    proceeds. *)
Lemma pre_accepts_non_function_witness :
  let s := set_preChain [VFun 0] (with_routes [example_route 0 "GET" "/x" None]) in
  let req := example_request "GET" "/x" in
  exists s',
    pre [VPrim (PNum 42)] s = inr s' /\
    @_request example_routes example_handlers s' req fresh_response =
      mkDispatch (Raised (TypeError "h is not a function")) s' req fresh_response [].
Proof.
  intros s req.
  apply (@pre_accepts_non_function example_routes example_handlers (VPrim (PNum 42)) s
           req req fresh_response fresh_response); [reflexivity | discriminate | reflexivity].
Defined.

Lemma request_sends_at_most_once_witness :
  let s := with_routes [example_route 0 "GET" "/x" None] in
  let req := example_request "DELETE" "/x" in
  exists extra,
    res_calls (d_res (@_request example_routes example_handlers s req fresh_response)) =
      res_calls (@series example_handlers (map HandlerTask (preChain s)) req
                   fresh_response).2 ++ extra /\
    (sends extra <= 1)%nat.
Proof.
  intros s req.
  apply (@request_sends_at_most_once example_routes example_handlers s req fresh_response).
  apply no_default_with_routes.
Defined.

Lemma request_keeps_no_default_witness :
  no_default_installed
    (d_server (@_request example_routes example_handlers
                 (with_routes [example_route 0 "GET" "/x" None])
                 (example_request "DELETE" "/x") fresh_response)).
Proof.
  apply (@request_keeps_no_default example_routes example_handlers). 
  apply no_default_with_routes.
Defined.

(** POST /x arrives on a server holding GET /x and GET /a. *)
Lemma addRoute_back_patches_witness :
  let s := with_routes [example_route 0 "GET" "/x" None; example_route 1 "GET" "/a" None] in
  let options := as_options "/x" in
  match @_addRoute example_routes "POST" options [VFun 7] s with
  | inr (r, s1) =>
      exists patched,
        routes s1 = patched ++ [r] /\
        Forall2 (λ old new,
                   same_but_methods old new /\
                   (is_Some (@matchesUrl example_routes old (OfUrl (o_url options))) ->
                    "POST" ∈ rt_methods new /\
                    (NoDup (rt_methods old) -> NoDup (rt_methods new))) /\
                   (@matchesUrl example_routes old (OfUrl (o_url options)) = None ->
                    new = old))
          (routes s) patched
  | inl _ => False
  end.
Proof.
  intros s options.
  apply (@addRoute_back_patches example_routes "POST" options [VFun 7] s).
  reflexivity.
Defined.

Lemma register_then_rm_witness :
  let s := set_next_id 1 (with_routes [example_route 0 "GET" "/x" None]) in
  match @_addRoute example_routes "POST" (as_options "/x") [VFun 7] s with
  | inr (r, s1) =>
      exists s2,
        rm (RmRoute r) s1 = inr (true, s2) /\
        routes s2 = map (@back_patch example_routes "POST" (as_options "/x")) (routes s) /\
        ids_fresh s2
  | inl _ => False
  end.
Proof.
  intros s.
  apply (@register_then_rm example_routes "POST" (as_options "/x") [VFun 7] s).
  - constructor; [simpl; lia | constructor].
  - reflexivity.
Defined.

Lemma rm_removes_one_witness :
  let s := with_routes [example_route 0 "GET" "/x" None; example_route 1 "GET" "/x" None] in
  exists b s',
    rm (RmName "GET /x") s = inr (b, s') /\
    (b = true <-> Exists (λ r, rm_matches (RmName "GET /x") r = true) (routes s)) /\
    (b = false -> s' = s) /\
    (b = true -> S (length (routes s')) = length (routes s) /\
                 routes s' `sublist_of` routes s).
Proof.
  intros s. apply (rm_removes_one (RmName "GET /x") s). discriminate.
Defined.

Lemma route_after_uses_witness :
  exists s1 s2 r,
    @use_all example_routes [[VFun 1]; []; [VArr [VFun 2; VFun 3]]] empty_server = inr s1 /\
    @route_verb example_routes put (SpecUrl "/x") [VFun 4] s1 = inr (r, s2) /\
    rt_handlers r = [VFun 1; VFun 2; VFun 3; VFun 4].
Proof.
  eexists _, _, _. split; [reflexivity|]. split; [reflexivity|].
  apply (@route_after_uses example_routes [[VFun 1]; []; [VArr [VFun 2; VFun 3]]] put
           (SpecUrl "/x") [VFun 4] empty_server _ _ _ eq_refl eq_refl).
Defined.

Lemma removed_route_not_resolved_witness :
  let s := with_routes [example_route 0 "GET" "/x" None; example_route 1 "GET" "/a" None] in
  let s' := with_routes [example_route 1 "GET" "/a" None] in
  rt_name (example_route 1 "GET" "/a" None) <> "GET /x".
Proof.
  intros s s'.
  apply (@removed_route_not_resolved example_routes "GET /x" s s'
           (example_request "GET" "/a") fresh_response (example_route 1 "GET" "/a" None));
    reflexivity.
Defined.

Lemma unmatched_path_gets_404_witness :
  let s := with_routes [example_route 0 "GET" "/a" None] in
  let req := example_request "GET" "/x" in
  fr_route (@_findRoute example_routes s req fresh_response) = None /\
  res_calls (fr_res (@_findRoute example_routes s req fresh_response)) =
    res_calls fresh_response ++
      [CallSend (SendError (ResourceNotFoundError (req_url req +:+ " not found")))].
Proof.
  intros s req. apply (@unmatched_path_gets_404 example_routes s req fresh_response).
  - constructor; [reflexivity | constructor].
  - reflexivity.
Defined.

Lemma version_mismatch_default_response_witness :
  res_calls (fr_res (@_findRoute example_routes
                       (with_routes [example_route 0 "GET" "/x" (Some "2.0");
                                     example_route 1 "GET" "/x" (Some "1.0")])
                       (mkRequest "GET" "/x" "/x" ["3.0"] None) fresh_response))
  = res_calls fresh_response ++
      [CallSend (SendError (InvalidVersionError "GET /x supports versions: 2.0, 1.0"))].
Proof.
  apply (@version_mismatch_default_response example_routes
           (with_routes [example_route 0 "GET" "/x" (Some "2.0");
                         example_route 1 "GET" "/x" (Some "1.0")])
           (mkRequest "GET" "/x" "/x" ["3.0"] None) fresh_response ["2.0"; "1.0"]).
  - constructor; [reflexivity|]. constructor; [reflexivity | constructor].
  - reflexivity.
  - reflexivity.
Defined.

(** GET /x holds handler 1; POST /x arrives; a GET /x request resolves
    to the first route, whose [methods] now name POST. *)
Lemma resolved_methods_include_later_witness :
  let s := with_routes [example_route 0 "GET" "/x" None] in
  exists r s1 r',
    @_addRoute example_routes "POST" (as_options "/x") [VFun 7] s = inr (r, s1) /\
    fr_route (@_findRoute example_routes s1 (example_request "GET" "/x") fresh_response)
      = Some r' /\
    res_methods (fr_res (@_findRoute example_routes s1 (example_request "GET" "/x")
                           fresh_response)) = Some ["GET"; "POST"].
Proof.
  intros s. eexists _, _, _. split; [reflexivity|]. split; [reflexivity|].
  destruct (@resolved_methods_include_later example_routes "POST" (as_options "/x")
              [VFun 7] s _ _ _ (example_request "GET" "/x") fresh_response
              eq_refl eq_refl) as [Hm _].
  rewrite Hm. reflexivity.
Defined.
